(** * Content generation pipeline of rag_bot_container_weather

    A shallow embedding of the deterministic parts of
    - backend/app/routers/rag.py      (result diversification, length cap,
                                       greeting rules of the chat prompt),
    - scripts/generate_talk.py        (retrying JSON client, topic choice,
                                       log feed, greeting rules of the question),
    - scripts/update_weather_feed.py  (rolling feed),
    and the properties the specification states about them. *)

From Stdlib Require Import ZArith QArith List String Ascii Lia PrimFloat.
From stdpp Require Import base option list sorting gmap sets strings pretty.

Set Warnings "-register-all".
Local Open Scope Z_scope.

(** ** Python values *)

(** A Python [str] is a sequence of Unicode code points: [len] and slicing
    count code points, and the ellipsis U+2026 is one character. *)
Abbreviation pystr := (list N).

(** The code points of an ASCII literal. *)
Definition str (s : string) : pystr :=
  (fun a => N_of_ascii a) <$> list_ascii_of_string s.

Definition SPACE : N := 32%N.
Definition ELLIPSIS : N := 8230%N.
Definition NEWLINE : pystr := [10%N].

(** [len(s)] as a Python int. *)
Definition len {A} (s : list A) : Z := Z.of_nat (length s).

(** [s[:n]]: a negative bound counts from the end. *)
Definition slice_to {A} (n : Z) (s : list A) : list A :=
  if 0 <=? n then take (Z.to_nat n) s
  else take (Z.to_nat (len s + n)) s.

(** [c in s] for a one-character needle. *)
Definition contains (c : N) (s : pystr) : bool :=
  existsb (N.eqb c) s.

(** [s.rsplit(c, 1)[0]]: what precedes the last occurrence of [c], the
    whole string when [c] does not occur. *)
Fixpoint before_last (c : N) (s : pystr) : option pystr :=
  match s with
  | [] => None
  | x :: s' =>
      match before_last c s' with
      | Some p => Some (x :: p)
      | None => if N.eqb x c then Some [] else None
      end
  end.

Definition rsplit1_head (c : N) (s : pystr) : pystr :=
  default s (before_last c s).

(** [str.isspace] on one code point: the characters [strip], [rstrip] and
    [split] without argument treat as whitespace. *)
Definition is_space (c : N) : bool :=
  ((9 <=? c) && (c <=? 13) || (28 <=? c) && (c <=? 32)
   || (c =? 133) || (c =? 160) || (c =? 5760)
   || (8192 <=? c) && (c <=? 8202)
   || (c =? 8232) || (c =? 8233) || (c =? 8239) || (c =? 8287)
   || (c =? 12288))%N.

(** [s.rstrip()] *)
Fixpoint rstrip (s : pystr) : pystr :=
  match s with
  | [] => []
  | x :: s' =>
      match rstrip s' with
      | [] => if is_space x then [] else [x]
      | r => x :: r
      end
  end.

(** ** rag.py: the length cap of the post-processor *)

(** [_enforce_max_chars], rag.py 213-219. *)
Definition _enforce_max_chars (text : pystr) (max_chars : Z) : pystr :=
  if (max_chars <=? 0) || (len text <=? max_chars) then text
  else
    let cut := slice_to (max_chars - 1) text in
    let cut := if contains SPACE cut then rsplit1_head SPACE cut else cut in
    rstrip cut ++ [ELLIPSIS].

(** The specification calls the post-processor [finalize]. *)
Abbreviation finalize := _enforce_max_chars.

(** ** Sorting as [sorted] and [list.sort] do it *)

(** Python's sort is stable, also with [reverse=True], and the result of a
    stable sort is determined by the order on the keys alone: insertion
    from the right, each element going before the first element that does
    not precede it, yields that result. *)
Fixpoint insert_by {A} (le : A -> A -> bool) (x : A) (l : list A) : list A :=
  match l with
  | [] => [x]
  | y :: l' => if le x y then x :: l else y :: insert_by le x l'
  end.

Definition sort_by {A} (le : A -> A -> bool) (l : list A) : list A :=
  foldr (insert_by le) [] l.

(** [<=] on [str]: lexicographic on code points. *)
Fixpoint pystr_leb (a b : pystr) : bool :=
  match a, b with
  | [], _ => true
  | _ :: _, [] => false
  | x :: a', y :: b' => (x <? y)%N || ((x =? y)%N && pystr_leb a' b')
  end.

(** ** Scalars and truthiness *)

(** The scalar values a metadata dict or a JSON document holds. *)
Inductive pyval : Type :=
  | PNone
  | PBool (b : bool)
  | PInt (z : Z)
  | PStr (s : pystr).

#[global] Instance pyval_eq_dec : EqDecision pyval.
Proof. solve_decision. Defined.

#[global] Instance pyval_countable : Countable pyval.
Proof.
  refine (inj_countable'
    (fun v => match v with
              | PNone => inl ()
              | PBool b => inr (inl b)
              | PInt z => inr (inr (inl z))
              | PStr s => inr (inr (inr s))
              end)
    (fun e => match e with
              | inl _ => PNone
              | inr (inl b) => PBool b
              | inr (inr (inl z)) => PInt z
              | inr (inr (inr s)) => PStr s
              end) _).
  intros []; reflexivity.
Defined.

(** [bool(v)] *)
Definition truthy (v : pyval) : bool :=
  match v with
  | PNone => false
  | PBool b => b
  | PInt z => negb (z =? 0)
  | PStr s => negb (len s =? 0)
  end.

(** [a or b] *)
Definition py_or (a b : pyval) : pyval := if truthy a then a else b.

(** [d.get(k)] on a dict of scalars: [None] when the key is missing. *)
Definition py_get (d : gmap pystr pyval) (k : pystr) : pyval :=
  default PNone (d !! k).

(** Membership in a Python [set] goes by [==] and [hash], under which
    [True] is [1] and [False] is [0]; scalars of other types are equal only
    to themselves.  A set is modelled by the normal forms it holds. *)
Definition py_norm (v : pyval) : pyval :=
  match v with
  | PBool b => PInt (if b then 1 else 0)
  | _ => v
  end.

(** ** rag.py: the retrieval diversifier *)

(** [rag_store.RAGChunk].  The class is declared in rag_store, whose source
    is not part of this development; [query_rag] reads the three fields
    below.  [metadata] is [None] when the attribute is not a dict;
    distances are compared exactly, here as rationals (no NaN). *)
Record RAGChunk : Type := {
  text : pystr;
  distance : Q;
  metadata : option (gmap pystr pyval)
}.

(** rag.py 383-384:
    [meta = c.metadata if isinstance(c.metadata, dict) else {}] and
    [key = meta.get("file") or meta.get("doc_id") or (c.text or "")[:40]]. *)
Definition dedup_key (c : RAGChunk) : pyval :=
  let meta := default ∅ (metadata c) in
  py_or (py_or (py_get meta (str "file")) (py_get meta (str "doc_id")))
        (PStr (slice_to 40 (text c))).

(** The [for] loop of rag.py 382-391, with [seen] and [diversified] as loop
    state; [continue] skips a seen key, [break] leaves the loop once
    [top_k] chunks are collected. *)
Fixpoint diversify_loop (top_k : Z) (seen : gset pyval)
    (diversified : list RAGChunk) (cs : list RAGChunk) : list RAGChunk :=
  match cs with
  | [] => diversified
  | c :: cs' =>
      let key := dedup_key c in
      if bool_decide (py_norm key ∈ seen) then
        diversify_loop top_k seen diversified cs'
      else
        let diversified := diversified ++ [c] in
        let seen := {[py_norm key]} ∪ seen in
        if top_k <=? len diversified then diversified
        else diversify_loop top_k seen diversified cs'
  end.

Definition by_distance (a b : RAGChunk) : bool :=
  Qle_bool (distance a) (distance b).

(** rag.py 380-392 on the tweet_bot path, the last line being
    [chunks = diversified or chunks[: payload.top_k]]. *)
Definition diversify (chunks : list RAGChunk) (top_k : Z) : list RAGChunk :=
  let diversified := diversify_loop top_k ∅ [] (sort_by by_distance chunks) in
  match diversified with
  | [] => slice_to top_k chunks
  | _ => diversified
  end.

(** The dedup key as the specification words it: the [file] entry if
    present, else the [doc_id] entry if present, else the first 40
    characters of the text. *)
Definition spec_dedup_key (c : RAGChunk) : pyval :=
  let meta := default ∅ (metadata c) in
  match meta !! str "file" with
  | Some v => v
  | None =>
      match meta !! str "doc_id" with
      | Some v => v
      | None => PStr (slice_to 40 (text c))
      end
  end.

(** Number of distinct keys of a list of chunks. *)
Definition distinct_keys (key : RAGChunk -> pyval) (cs : list RAGChunk) : Z :=
  Z.of_nat (size (list_to_set (C := gset pyval) (py_norm ∘ key <$> cs))).

(** Two chunks whose [file] entry is present but empty. *)
Definition chunk_empty_file (doc_id : string) (d : Q) : RAGChunk :=
  {| text := str "Yokosuka";
     distance := d;
     metadata := Some (<[str "file" := PStr []]>
                        {[ str "doc_id" := PStr (str doc_id) ]}) |}.

Definition chunks_empty_file : list RAGChunk :=
  [chunk_empty_file "a" (1 # 10); chunk_empty_file "b" (2 # 10)].

(** The chunks the loop of [diversify_loop] keeps when it is never left
    early. *)
Fixpoint first_of_each (seen : gset pyval) (cs : list RAGChunk) : list RAGChunk :=
  match cs with
  | [] => []
  | c :: cs' =>
      if bool_decide (py_norm (dedup_key c) ∈ seen) then first_of_each seen cs'
      else c :: first_of_each ({[py_norm (dedup_key c)]} ∪ seen) cs'
  end.

(** ** JSON documents and exceptions *)

(** What [json.loads] returns: scalars, lists and dicts with string keys
    (numbers are Python ints here). *)
Inductive json : Type :=
  | JAtom (v : pyval)
  | JArr (l : list json)
  | JObj (m : gmap pystr json).

Definition JNone : json := JAtom PNone.
Definition JStr (s : pystr) : json := JAtom (PStr s).

(** [bool(v)]: empty containers are falsy. *)
Definition json_truthy (v : json) : bool :=
  match v with
  | JAtom a => truthy a
  | JArr l => negb (len l =? 0)
  | JObj m => negb (Z.of_nat (size m) =? 0)
  end.

(** [a or b] *)
Definition json_or (a b : json) : json := if json_truthy a then a else b.

(** [type(v).__name__] *)
Definition json_type (v : json) : pystr :=
  match v with
  | JAtom PNone => str "NoneType"
  | JAtom (PBool _) => str "bool"
  | JAtom (PInt _) => str "int"
  | JAtom (PStr _) => str "str"
  | JArr _ => str "list"
  | JObj _ => str "dict"
  end.

(** The text of the [RuntimeError]s that [http_json] raises, one
    constructor per f-string of generate_talk.py 107-144; [Text] is the
    [str(e)] of an exception raised by a library. *)
Inductive message : Type :=
  | Text (s : pystr)
  | EmptyBody (url : pystr)
  | NonJSONBody (url : pystr) (raw200 : list N)
  | NonObjectJSON (url : pystr) (type_name : pystr)
  | HTTPErrorMsg (code : Z) (reason : pystr) (method url : pystr) (snippet : list N)
  | TimedOut (max_time_s : Z) (method url : pystr)
  | RequestFailed (method url : pystr) (e : option message).

(** Exceptions, [RuntimeError] with the exception it is raised [from]. *)
Inductive exn : Type :=
  | AttributeError
  | TypeError
  | ValueError
  | OverflowError
  | OSError
  | HTTPError (code : Z) (reason : pystr) (body : option (list N))
  | TimeoutError (e_msg : pystr)
  | OtherError (e_msg : pystr)
  | RuntimeError (msg : message) (cause : option exn).

(** A computation that returns a value or raises. *)
Definition result : Type -> Type := sum exn.
Definition raise {A} (e : exn) : result A := inl e.

#[global] Instance result_ret : MRet result := fun A x => inr x.
#[global] Instance result_bind : MBind result := fun A B f m =>
  match m with
  | inl e => inl e
  | inr x => f x
  end.

(** [for x in xs: ys.append(f(x))], left to right, the first exception
    ending the loop. *)
Fixpoint for_each {A B} (f : A -> result B) (xs : list A) : result (list B) :=
  match xs with
  | [] => mret []
  | x :: xs' => y ← f x; ys ← for_each f xs'; mret (y :: ys)
  end.

(** [x.get(k, dflt)]: only a dict has the method. *)
Definition dict_get (x : json) (k : pystr) (dflt : json) : result json :=
  match x with
  | JObj m => mret (default dflt (m !! k))
  | _ => raise AttributeError
  end.

(** [list(v)]: a list is copied, a str gives its characters, a dict its
    keys (whose order plays no role below), other scalars are not
    iterable. *)
Definition py_list (v : json) : result (list json) :=
  match v with
  | JArr l => mret l
  | JObj m => mret (JStr <$> (map_to_list m).*1)
  | JAtom (PStr s) => mret ((fun c => JStr [c]) <$> s)
  | JAtom _ => raise TypeError
  end.

(** ** The feed scripts *)

(** What reading a path and parsing its text gives. *)
Inductive stored : Type :=
  | Absent
  | Unreadable
  | Holds (j : json).

(** Arguments of update_weather_feed.py besides the paths. *)
Record feed_args : Type := {
  arg_date : pystr;
  arg_text : pystr;
  arg_place : pystr;
  arg_limit : Z
}.

(** A byte-sized failure of the operating system while a file is written. *)
Inductive fault : Type :=
  | NoFault
  | OpenFails
  | WriteFails (written : nat).

Section feed.

(** Library functions the scripts call and this development takes as
    given: [str] on a list or dict, [json.dumps(obj, ensure_ascii=False,
    indent=2)], and [json.loads] ([None] when it raises). *)
Variable py_repr : json -> pystr.
Variable dumps : json -> pystr.
Variable loads : pystr -> option json.

(** [str(v)] *)
Definition py_str (v : json) : pystr :=
  match v with
  | JAtom PNone => str "None"
  | JAtom (PBool true) => str "True"
  | JAtom (PBool false) => str "False"
  | JAtom (PInt z) => str (pretty z)
  | JAtom (PStr s) => s
  | _ => py_repr v
  end.

(** *** update_weather_feed.py *)

(** [_load_json], lines 17-23: [None] for a missing file and for any other
    exception. *)
Definition _load_json (f : stored) : json :=
  match f with
  | Holds j => j
  | Absent | Unreadable => JNone
  end.

(** Lines 69-75: the feed of the first path whose content is truthy. *)
Fixpoint first_loaded (files : list stored) : json :=
  match files with
  | [] => JObj {[ str "items" := JArr [] ]}
  | f :: files' =>
      let loaded := _load_json f in
      if json_truthy loaded then loaded else first_loaded files'
  end.

(** [str(x.get("date", ""))], the key of lines 78 and 85. *)
Definition item_date (x : json) : result pystr :=
  d ← dict_get x (str "date") (JStr []); mret (py_str d).

(** Lines 80-82. *)
Definition make_entry (args : feed_args) : gmap pystr json :=
  let entry := <[str "text" := JStr (arg_text args)]>
                 {[ str "date" := JStr (arg_date args) ]} in
  if negb (len (arg_place args) =? 0)
  then <[str "place" := JStr (arg_place args)]> entry
  else entry.

(** [items.sort(key=..., reverse=True)]: the keys are computed once per
    item, then the items are ordered by decreasing key, equal keys in
    their former order. *)
Definition sort_by_date_desc (items : list json) : result (list json) :=
  keyed ← for_each (fun x => d ← item_date x; mret (d, x)) items;
  mret ((sort_by (fun a b => pystr_leb (fst b) (fst a)) keyed).*2).

(** Lines 77-91 of [main]: from the loaded feed to the feed and the entry
    that are written. *)
Definition update_feed (feed : json) (args : feed_args) (now : pystr)
    : result (json * json) :=
  found ← dict_get feed (str "items") JNone;
  items ← py_list (json_or found (JArr []));
  dated ← for_each (fun x => d ← item_date x; mret (d, x)) items;
  let items := (filter (fun dx => fst dx <> arg_date args) dated).*2 in
  let entry := JObj (make_entry args) in
  let items := items ++ [entry] in
  items ← sort_by_date_desc items;
  let items := slice_to (Z.max 1 (arg_limit args)) items in
  match feed with
  | JObj m =>
      let m := <[str "items" := JArr items]> m in
      let m := <[str "updated_at" := JStr now]> m in
      let m := if negb (len (arg_place args) =? 0)
               then <[str "place" := JStr (arg_place args)]> m else m in
      mret (JObj m, entry)
  | _ => raise TypeError
  end.

(** One upsert after another, each run reading the feed the run before
    wrote; a run is its arguments and its clock. *)
Fixpoint upserts (feed : json) (runs : list (feed_args * pystr)) : result json :=
  match runs with
  | [] => mret feed
  | (args, now) :: runs' =>
      r ← update_feed feed args now; upserts (fst r) runs'
  end.

(** The rolling upsert as the specification words it, on items that are
    dicts: drop the items of the new date, add the entry, order by date
    descending, cut to [max(1, maxItems)]. *)
Definition date_of (x : gmap pystr json) : pystr :=
  py_str (default (JStr []) (x !! str "date")).

Definition spec_upsert (items : list (gmap pystr json)) (date : pystr)
    (entry : gmap pystr json) (max_items : Z) : list (gmap pystr json) :=
  take (Z.to_nat (Z.max 1 max_items))
    (sort_by (fun a b => pystr_leb (date_of b) (date_of a))
       (filter (fun x => date_of x <> date) items ++ [entry])).

(** *** The files *)

(** The files by path, each with its text. Directories are not modelled:
    [mkdir(parents=True, exist_ok=True)] is taken to succeed. *)
Definition read_stored (files : gmap pystr pystr) (p : pystr) : stored :=
  match files !! p with
  | None => Absent
  | Some t => match loads t with Some j => Holds j | None => Unreadable end
  end.

(** [path.write_text(data)]: opening for writing creates or truncates the
    file, then the text is written; a failure on the way leaves what was
    written so far. *)
Definition write_text (files : gmap pystr pystr) (p data : pystr) (f : fault)
    : gmap pystr pystr * result () :=
  match f with
  | NoFault => (<[p := data]> files, mret ())
  | OpenFails => (files, raise OSError)
  | WriteFails n => (<[p := take n data]> files, raise OSError)
  end.

(** [tmp.replace(path)]: the rename happens as a whole or not at all. *)
Definition replace_file (files : gmap pystr pystr) (src dst : pystr) (fails : bool)
    : gmap pystr pystr * result () :=
  if fails then (files, raise OSError)
  else match files !! src with
       | Some t => (<[dst := t]> (delete src files), mret ())
       | None => (files, raise OSError)
       end.

(** *** generate_talk.py *)

(** [write_json], lines 409-411. *)
Definition write_json (files : gmap pystr pystr) (path : pystr) (obj : json)
    (f : fault) : gmap pystr pystr * result () :=
  write_text files path (dumps obj ++ NEWLINE) f.

(** Lines 457-463 of [append_feed]: an absent or unreadable file counts as
    the empty list. *)
Definition read_feed_obj (f : stored) : json :=
  match f with
  | Holds j => j
  | Absent | Unreadable => JArr []
  end.

(** Lines 465-477: the object written back, the entry first. *)
Definition with_entry (feed_obj entry : json) : json :=
  match feed_obj with
  | JObj m =>
      match m !! str "items" with
      | Some items =>
          let items := match items with JArr l => l | _ => [] end in
          JObj (<[str "items" := JArr (entry :: items)]> m)
      | None => JArr [entry]
      end
  | JArr l => JArr (entry :: l)
  | JAtom _ => JArr [entry]
  end.

(** [append_feed], lines 451-477: every path in turn, the first failing
    write ending the run; [faults] gives the fate of each write. *)
Fixpoint append_feed (files : gmap pystr pystr) (feed_paths : list pystr)
    (entry : json) (faults : list fault) : gmap pystr pystr * result () :=
  match feed_paths with
  | [] => (files, mret ())
  | p :: ps =>
      let feed_obj := read_feed_obj (read_stored files p) in
      match write_json files p (with_entry feed_obj entry) (hd NoFault faults) with
      | (files, inl e) => (files, inl e)
      | (files, inr _) => append_feed files ps entry (tl faults)
      end
  end.

(** [write_latest], lines 480-482. *)
Fixpoint write_latest (files : gmap pystr pystr) (latest_paths : list pystr)
    (entry : json) (faults : list fault) : gmap pystr pystr * result () :=
  match latest_paths with
  | [] => (files, mret ())
  | p :: ps =>
      match write_json files p entry (hd NoFault faults) with
      | (files, inl e) => (files, inl e)
      | (files, inr _) => write_latest files ps entry (tl faults)
      end
  end.

End feed.

(** [feed.get("items") or []] of a feed dict: a missing or falsy entry
    reads as no items. *)
Definition items_read (m : gmap pystr json) : json :=
  json_or (default JNone (m !! str "items")) (JArr []).

(** The runs of the specification's example. *)
Definition run_on (date : string) : feed_args * pystr :=
  ({| arg_date := str date; arg_text := str "fine"; arg_place := [];
      arg_limit := 2 |}, str "2024-01-05T00:00:00+00:00").

(** A feed file holding a bare JSON sequence, as [append_feed] writes it
    for a new path. *)
Definition bare_sequence : stored :=
  Holds (JArr [JObj {[ str "date" := JStr (str "2024-01-01") ]}]).

(** The path of a feed file, and the feed an earlier run left there. *)
Definition feed_path : pystr := str "frontend/app/public/feed/feed.json".
Definition old_feed : json :=
  JArr [JObj {[ str "date" := JStr (str "2024-01-01") ]}].

(** ** generate_talk.py: the retrying JSON client *)

(** [HttpCfg], generate_talk.py 43-49.  [retry_sleep_s] is a Python
    float, a binary64 number: [main] builds the configuration with
    [float(args.http_retry_sleep)]. *)
Record HttpCfg : Type := {
  max_time_s : Z;
  retries : Z;
  retry_sleep_s : float;
  user_agent : pystr
}.

(** What the network does with one request: [urlopen] or [resp.read()]
    raises, or the body [raw] is read, [parsed] being what
    [json.loads(raw.decode("utf-8"))] gives ([None] when it raises). *)
Inductive response : Type :=
  | RaisesHTTPError (code : Z) (reason : pystr) (body : option (list N))
  | RaisesTimeout (e_msg : pystr)
  | RaisesOther (e_msg : pystr)
  | Returns (raw : list N) (parsed : option json).

(** What the executor does that the outside can see. *)
Inductive event : Type :=
  | Request (attempt : Z)
  | Sleep (seconds : float).

(** The [try] block, lines 92-115. *)
Definition try_request (url : pystr) (r : response) : result (gmap pystr json) :=
  match r with
  | RaisesHTTPError code reason body => raise (HTTPError code reason body)
  | RaisesTimeout m => raise (TimeoutError m)
  | RaisesOther m => raise (OtherError m)
  | Returns raw parsed =>
      if len raw =? 0 then raise (RuntimeError (EmptyBody url) None)
      else
        match parsed with
        | None => raise (RuntimeError (NonJSONBody url (slice_to 200 raw)) None)
        | Some (JObj obj) => mret obj
        | Some obj => raise (RuntimeError (NonObjectJSON url (json_type obj)) None)
        end
  end.

(** [str(e)] for the exceptions the generic handler sees: those of the
    library and the [RuntimeError]s of the [try] block. *)
Definition exn_str (e : exn) : message :=
  match e with
  | RuntimeError msg _ => msg
  | OtherError m => Text m
  | TimeoutError m => Text m
  | _ => Text []
  end.

(** The [RuntimeError] the three handlers raise [from e] at the last
    attempt, lines 117-139.  [body] is [None] when [e.read()] raises; the
    snippet is the first 400 bytes of the body, decoded. *)
Definition final_error (cfg : HttpCfg) (method url : pystr) (e : exn) : exn :=
  match e with
  | HTTPError code reason body =>
      let err_body := default [] body in
      let snippet := if len err_body =? 0 then [] else slice_to 400 err_body in
      RuntimeError (HTTPErrorMsg code reason method url snippet) (Some e)
  | TimeoutError _ =>
      RuntimeError (TimedOut (max_time_s cfg) method url) (Some e)
  | _ =>
      RuntimeError (RequestFailed method url (Some (exn_str e))) (Some e)
  end.

(** [range(n)] *)
Definition range (n : Z) : list Z := seqZ 0 n.

Section http_client.

(** What the platform does with a length that CPython hands over to it
    ([clock_nanosleep], [select]): it sleeps, or it fails, as Linux does
    with [OSError] for a length whose deadline it cannot hold.  For the
    one length of exactly 2^63 ns the versions of CPython differ (an
    [OverflowError] or a [ValueError]); that outcome is left here too.
    Taken as given. *)
Variable platform_sleep : float -> result ().

(** [time.sleep(seconds)] on a float.  A NaN is a [ValueError].  Else
    the length is taken to nanoseconds in binary64 arithmetic; beyond
    2^63 ns in either direction (about 9.22e9 s, and the infinities) the
    call raises [OverflowError]: rounding to an integer changes nothing
    in that test, as a binary64 number of that size is an integer.  A
    negative length that fits is a [ValueError]; any other length goes
    to the platform. *)
Definition sleep (seconds : float) : result () :=
  if PrimFloat.is_nan seconds then raise ValueError
  else
    let ns := (seconds * 1e9)%float in
    if ((ns <? -0x1p63) || (0x1p63 <? ns))%float then raise OverflowError
    else if (ns <? 0)%float then raise ValueError
    else platform_sleep seconds.

(** The [for] loop of lines 91-141 and the fallback of line 144, with
    [last_exc] and the trace of requests and sleeps as loop state. *)
Fixpoint http_loop (cfg : HttpCfg) (method url : pystr) (transport : Z -> response)
    (attempts : list Z) (last_exc : option exn) (trace : list event)
    : result (gmap pystr json) * list event :=
  match attempts with
  | [] => (raise (RuntimeError (RequestFailed method url None) last_exc), trace)
  | attempt :: attempts' =>
      let trace := trace ++ [Request attempt] in
      match try_request url (transport attempt) with
      | inr obj => (mret obj, trace)
      | inl e =>
          if retries cfg <=? attempt then (raise (final_error cfg method url e), trace)
          else
            match sleep (retry_sleep_s cfg) with
            | inl e' => (raise e', trace)
            | inr _ =>
                http_loop cfg method url transport attempts' (Some e)
                  (trace ++ [Sleep (retry_sleep_s cfg)])
            end
      end
  end.

(** [http_json], lines 83-144.  The payload is part of the request that
    [transport] answers. *)
Definition http_json (method url : pystr) (cfg : HttpCfg) (transport : Z -> response)
    : result (gmap pystr json) * list event :=
  http_loop cfg method url transport (range (retries cfg + 1)) None [].

End http_client.

(** A platform that sleeps every length it is handed. *)
Definition sleeps_any (seconds : float) : result () := mret ().

(** [k] requests, numbered from [first], with a sleep between each two. *)
Fixpoint requests_with_sleeps (seconds : float) (first : Z) (k : nat) : list event :=
  match k with
  | O => []
  | S O => [Request first]
  | S k' => Request first :: Sleep seconds :: requests_with_sleeps seconds (first + 1) k'
  end.

(** The number of requests in a trace. *)
Fixpoint count_requests (trace : list event) : nat :=
  match trace with
  | [] => 0
  | Request _ :: trace' => S (count_requests trace')
  | Sleep _ :: trace' => count_requests trace'
  end.

(** The exception a [RuntimeError] was raised from. *)
Definition cause_of (e : exn) : option exn :=
  match e with RuntimeError _ c => c | _ => None end.

(** The configuration and network of the specification's examples: two
    retries, the first two requests time out or are refused. *)
Definition cfg_two_retries : HttpCfg :=
  {| max_time_s := 60; retries := 2; retry_sleep_s := 1%float;
     user_agent := str "test" |}.

Definition third_time_lucky (attempt : Z) : response :=
  if attempt <? 2 then RaisesOther (str "connection refused")
  else Returns (str "{}") (Some (JObj ∅)).

Definition never_lucky (attempt : Z) : response :=
  if attempt <? 2 then RaisesOther (str "connection refused")
  else RaisesHTTPError 503 (str "Service Unavailable") (Some (str "busy")).

(** ** Local time: topic and greeting *)

(** The fields of [now_local] that the scripts read. *)
Record datetime : Type := {
  year : Z;
  month : Z;
  day : Z;
  hour : Z
}.

(** *** generate_talk.py: the topic selector *)

Definition TOPIC_FAMILIES : list pystr :=
  str <$> ["season"; "food"; "culture"; "history"; "nature"; "tips"; "events";
           "running"]%string.

Definition TOPIC_MODES : list pystr :=
  str <$> ["fact"; "question"; "mini_story"; "recommendation"]%string.

(** What [_stable_hour_seed] hashes: the local time to the hour
    ([strftime("%Y-%m-%dT%H")]). *)
Definition hour_key (now_local : datetime) : Z * Z * Z * Z :=
  (year now_local, month now_local, day now_local, hour now_local).

(** [rng.choice(seq)] is [seq[rng._randbelow(len(seq))]].  The generator
    is seeded with the SHA-256 of the hour key; the digest and the
    Mersenne Twister are not modelled, only what they determine:
    [draws i n] is the result of the [i]-th call of [_randbelow], asked
    for a number below [n] (and reduced below [n] here).  An empty
    sequence is an [IndexError]. *)
Definition choice {A} (draws : nat -> nat -> nat) (i : nat) (seq : list A)
    : option A :=
  seq !! (draws i (length seq) mod length seq)%nat.

(** Lines 232-241. *)
Definition families_for (hour : Z) : list pystr :=
  if (5 <=? hour) && (hour <=? 10) then
    str <$> ["tips"; "running"; "food"; "season"; "nature"; "culture"; "history";
             "events"]%string
  else if (11 <=? hour) && (hour <=? 15) then
    str <$> ["food"; "culture"; "history"; "events"; "season"; "nature"; "tips";
             "running"]%string
  else if (16 <=? hour) && (hour <=? 21) then
    str <$> ["events"; "culture"; "food"; "history"; "season"; "nature"; "tips";
             "running"]%string
  else
    str <$> ["season"; "history"; "culture"; "nature"; "tips"; "food"; "events";
             "running"]%string.

(** Lines 246-248. *)
Definition modes_for (topic_family : pystr) : list pystr :=
  if bool_decide (topic_family ∈ [str "tips"; str "recommendation"]) then
    str <$> ["recommendation"; "fact"; "question"; "mini_story"]%string
  else TOPIC_MODES.

(** [pick_topic], lines 224-250; [generator] gives the draws of the
    generator seeded for an hour key. *)
Definition pick_topic (generator : Z * Z * Z * Z -> nat -> nat -> nat)
    (now_local : datetime) : option (pystr * pystr) :=
  let rng := generator (hour_key now_local) in
  topic_family ← choice rng 0 (families_for (hour now_local));
  topic_mode ← choice rng 1 (modes_for topic_family);
  Some (topic_family, topic_mode).

(** A generator that draws [r] at its second call, and an early morning. *)
Definition draws_second (r : nat) : Z * Z * Z * Z -> nat -> nat -> nat :=
  fun _ i _ => match i with 1%nat => r | _ => 0%nat end.

Definition morning_of_june : datetime :=
  {| year := 2024; month := 6; day := 10; hour := 6 |}.

(** *** The greeting rules *)

(** Neither script computes a greeting: each sends the rules to the
    language model as lines of its prompt.  A rule is a line of such a
    block: a range of dates (month, day) or of hours, both ends included,
    and the greeting it prescribes. "05:00-10:59" is the hours 5 to 10;
    a range of hours whose start is after its end passes midnight. *)
Record date_rule : Type := {
  from_md : Z * Z;
  to_md : Z * Z;
  date_greeting : pystr
}.

Record hour_rule : Type := {
  from_h : Z;
  to_h : Z;
  hour_greeting : pystr
}.

(** HOLIDAY OVERRIDE, rag.py 254-259. *)
Definition BACKEND_DATE_RULES : list date_rule := [
  {| from_md := (12, 24); to_md := (12, 24); date_greeting := str "Merry Christmas Eve" |};
  {| from_md := (12, 25); to_md := (12, 25); date_greeting := str "Merry Christmas" |};
  {| from_md := (12, 31); to_md := (12, 31); date_greeting := str "Happy New Year's Eve" |};
  {| from_md := (1, 1); to_md := (1, 4); date_greeting := str "Happy New Year" |}
].

(** The greetings by local hour, rag.py 260-264. *)
Definition BACKEND_HOUR_RULES : list hour_rule := [
  {| from_h := 5; to_h := 10; hour_greeting := str "Good morning" |};
  {| from_h := 11; to_h := 16; hour_greeting := str "Good afternoon" |};
  {| from_h := 17; to_h := 21; hour_greeting := str "Good evening" |};
  {| from_h := 22; to_h := 4; hour_greeting := str "Good night" |}
].

(** The rules of [build_question], generate_talk.py 301-304, which the
    comment of lines 280-281 wants consistent with the backend prompt. *)
Definition QUESTION_DATE_RULES : list date_rule := [
  {| from_md := (12, 31); to_md := (12, 31); date_greeting := str "New Year's Eve" |};
  {| from_md := (1, 1); to_md := (1, 1); date_greeting := str "New Year's Day" |}
].

Definition QUESTION_HOUR_RULES : list hour_rule := [
  {| from_h := 5; to_h := 10; hour_greeting := str "morning" |};
  {| from_h := 11; to_h := 15; hour_greeting := str "midday" |};
  {| from_h := 16; to_h := 21; hour_greeting := str "evening" |};
  {| from_h := 22; to_h := 4; hour_greeting := str "night" |}
].

Definition md_leb (a b : Z * Z) : bool :=
  (fst a <? fst b) || ((fst a =? fst b) && (snd a <=? snd b)).

Definition date_matches (now : datetime) (r : date_rule) : bool :=
  md_leb (from_md r) (month now, day now) && md_leb (month now, day now) (to_md r).

Definition hour_matches (now : datetime) (r : hour_rule) : bool :=
  if from_h r <=? to_h r then (from_h r <=? hour now) && (hour now <=? to_h r)
  else (from_h r <=? hour now) || (hour now <=? to_h r).

(** The rules read as the prompt states them: a date rule, if one
    matches, else the rule of the hour. *)
Definition resolve_greeting (dates : list date_rule) (hours : list hour_rule)
    (now : datetime) : option pystr :=
  match List.find (date_matches now) dates with
  | Some r => Some (date_greeting r)
  | None => hour_greeting <$> List.find (hour_matches now) hours
  end.

(** The decision table of the specification. *)
Inductive greeting : Type :=
  | ChristmasEve | Christmas | NewYearsEve | NewYear
  | Morning | Afternoon | Evening | Night.

Definition spec_greeting (now : datetime) : greeting :=
  if (month now =? 12) && (day now =? 24) then ChristmasEve
  else if (month now =? 12) && (day now =? 25) then Christmas
  else if (month now =? 12) && (day now =? 31) then NewYearsEve
  else if (month now =? 1) && (1 <=? day now) && (day now <=? 4) then NewYear
  else if (5 <=? hour now) && (hour now <? 11) then Morning
  else if (11 <=? hour now) && (hour now <? 17) then Afternoon
  else if (17 <=? hour now) && (hour now <? 22) then Evening
  else Night.

(** The words of the backend prompt for each greeting. *)
Definition backend_text (g : greeting) : pystr :=
  match g with
  | ChristmasEve => str "Merry Christmas Eve"
  | Christmas => str "Merry Christmas"
  | NewYearsEve => str "Happy New Year's Eve"
  | NewYear => str "Happy New Year"
  | Morning => str "Good morning"
  | Afternoon => str "Good afternoon"
  | Evening => str "Good evening"
  | Night => str "Good night"
  end.

(** The words of [build_question] for each greeting it knows. *)
Definition question_text (g : greeting) : option pystr :=
  match g with
  | NewYearsEve => Some (str "New Year's Eve")
  | NewYear => Some (str "New Year's Day")
  | Morning => Some (str "morning")
  | Afternoon => Some (str "midday")
  | Evening => Some (str "evening")
  | Night => Some (str "night")
  | ChristmasEve | Christmas => None
  end.

Definition late_afternoon : datetime :=
  {| year := 2024; month := 6; day := 10; hour := 16 |}.

Definition christmas_morning : datetime :=
  {| year := 2024; month := 12; day := 25; hour := 8 |}.

(** A configuration with a negative number of retries, two with a delay
    that [time.sleep] refuses, and a network that is down. *)
Definition cfg_negative_retries : HttpCfg :=
  {| max_time_s := 60; retries := -1; retry_sleep_s := 1%float;
     user_agent := str "test" |}.

Definition cfg_negative_sleep : HttpCfg :=
  {| max_time_s := 60; retries := 3; retry_sleep_s := (-1)%float;
     user_agent := str "test" |}.

Definition cfg_huge_sleep : HttpCfg :=
  {| max_time_s := 60; retries := 3; retry_sleep_s := 1e19%float;
     user_agent := str "test" |}.

Definition always_down (attempt : Z) : response :=
  RaisesOther (str "connection refused").

(** The default paths of update_weather_feed.py as the script spells
    them, lines 44-47 and 58, and the arguments of a first run. *)
Definition default_feed_paths : list pystr :=
  [str "public/weather_feed.json"; str "frontend/app/public/weather_feed.json"].

Definition default_latest : pystr := str "public/latest.json".

(** Two chunks of one file, the farther one first. *)
Definition chunk_of_file (file text : string) (d : Q) : RAGChunk :=
  {| text := str text;
     distance := d;
     metadata := Some {[ str "file" := PStr (str file) ]} |}.

Definition chunks_one_file : list RAGChunk :=
  [chunk_of_file "a.json" "far" (1 # 2); chunk_of_file "a.json" "near" (1 # 10)].

(** A feed that holds two items of one date, as no run of the script
    leaves it but a hand or another tool may, and a run for a later
    date that keeps five items. *)
Definition item_of (date text : string) : gmap pystr json :=
  <[str "text" := JStr (str text)]> {[ str "date" := JStr (str date) ]}.

Definition feed_two_of_a_date : json :=
  JObj {[ str "items" := JArr [JObj (item_of "2024-01-02" "rain");
                               JObj (item_of "2024-01-02" "sun")] ]}.

Definition run_keeping_five : feed_args * pystr :=
  ({| arg_date := str "2024-01-03"; arg_text := str "fine"; arg_place := [];
      arg_limit := 5 |}, str "2024-01-05T00:00:00+00:00").

(** A run for a later date with a limit of zero, and a feed with a field
    the script does not know. *)
Definition newer_args : feed_args :=
  {| arg_date := str "2024-07-01"; arg_text := str "fine"; arg_place := [];
     arg_limit := 0 |}.

Definition feed_with_source : gmap pystr json :=
  <[str "source" := JStr (str "jma")]> {[ str "items" := JArr [] ]}.

(** A feed that is full with one item, and a run for an earlier date. *)
Definition june_item : gmap pystr json :=
  {[ str "date" := JStr (str "2024-06-01") ]}.

Definition backfill_args : feed_args :=
  {| arg_date := str "2024-01-01"; arg_text := str "fine"; arg_place := [];
     arg_limit := 1 |}.

Definition first_run_args : feed_args :=
  {| arg_date := str "2024-01-01"; arg_text := str "fine"; arg_place := [];
     arg_limit := 365 |}.

(** ** More of [str] *)

(** [s.lstrip()] and [s.strip()] *)
Fixpoint lstrip (s : pystr) : pystr :=
  match s with
  | [] => []
  | c :: s' => if is_space c then lstrip s' else s
  end.

Definition strip (s : pystr) : pystr := rstrip (lstrip s).

(** [s.split()]: the maximal runs of characters that are not whitespace. *)
Fixpoint split_ws (s : pystr) : list pystr :=
  match s with
  | [] => []
  | c :: s' =>
      if is_space c then split_ws s'
      else
        match s' with
        | [] => [[c]]
        | c' :: _ =>
            if is_space c' then [c] :: split_ws s'
            else
              match split_ws s' with
              | w :: ws => (c :: w) :: ws
              | [] => [[c]]
              end
        end
  end.

(** [s.split(sep)] for a one-character separator: one part more than
    there are separators. *)
Fixpoint split_on (sep : N) (s : pystr) : list pystr :=
  match s with
  | [] => [[]]
  | c :: s' =>
      if (c =? sep)%N then [] :: split_on sep s'
      else
        match split_on sep s' with
        | w :: ws => (c :: w) :: ws
        | [] => [[c]]
        end
  end.

(** [sep.join(parts)] *)
Fixpoint join (sep : pystr) (parts : list pystr) : pystr :=
  match parts with
  | [] => []
  | [w] => w
  | w :: ws => w ++ sep ++ join sep ws
  end.

(** [s.replace(a, b)] for one-character [a] and [b]. *)
Definition replace1 (a b : N) (s : pystr) : pystr :=
  (fun c => if (c =? a)%N then b else c) <$> s.

(** [s.startswith(a)], [s.endswith(b)] for one-character [a], [b], and
    [s[1:-1]]. *)
Definition startswith1 (a : N) (s : pystr) : bool :=
  match s with
  | c :: _ => (c =? a)%N
  | [] => false
  end.

Definition endswith1 (b : N) (s : pystr) : bool :=
  match last s with
  | Some c => (c =? b)%N
  | None => false
  end.

Definition slice_inner {A} (s : list A) : list A :=
  drop 1 (take (length s - 1) s).

(** ** rag.py: cleaning the generated text *)

(** [_clean_single_line], rag.py 194-195. *)
Definition _clean_single_line (text : pystr) : pystr :=
  strip (join [SPACE]
           (split_ws (replace1 9 SPACE (replace1 13 SPACE (replace1 10 SPACE text))))).

(** The pairs of rag.py 200-206: straight double and single quotes, curly
    double and single quotes, backticks. *)
Definition QUOTE_PAIRS : list (N * N) :=
  [(34, 34); (39, 39); (8220, 8221); (8216, 8217); (96, 96)]%N.

(** One turn of the loop of rag.py 207-209. *)
Definition strip_pair (s : pystr) (pair : N * N) : pystr :=
  if startswith1 (fst pair) s && endswith1 (snd pair) s && (2 <=? len s)
  then strip (slice_inner s) else s.

(** [_strip_wrapping_quotes], rag.py 198-210. *)
Definition _strip_wrapping_quotes (text : pystr) : pystr :=
  foldl strip_pair (strip text) QUOTE_PAIRS.

(** ** generate_talk.py: the answer of the backend and the paths *)

(** [v.strip()] when [v] is a str and that is not empty (lines 382, 388). *)
Definition nonblank_str (v : json) : option pystr :=
  match v with
  | JAtom (PStr s) => if len (strip s) =? 0 then None else Some (strip s)
  | _ => None
  end.

(** The loop of lines 380-383 over the keys. *)
Fixpoint first_nonblank (resp_obj : gmap pystr json) (keys : list pystr)
    : option pystr :=
  match keys with
  | [] => None
  | k :: keys' =>
      match nonblank_str (default JNone (resp_obj !! k)) with
      | Some t => Some t
      | None => first_nonblank resp_obj keys'
      end
  end.

(** [extract_tweet], lines 374-390; [None] is the [RuntimeError] of line
    390. *)
Definition extract_tweet (resp_obj : gmap pystr json) : option pystr :=
  match first_nonblank resp_obj [str "answer"; str "text"; str "output"] with
  | Some t => Some t
  | None =>
      match default JNone (resp_obj !! str "result") with
      | JObj result => nonblank_str (default JNone (result !! str "answer"))
      | _ => None
      end
  end.

(** The parts of a list that are not blank, stripped: what the loop of
    [parse_paths] keeps (lines 491-494), and the comprehensions of
    update_weather_feed.py 41 and rag.py 312. *)
Definition COMMA : N := 44%N.

Fixpoint nonblank_parts (parts : list pystr) : list pystr :=
  match parts with
  | [] => []
  | s :: parts' =>
      let s := strip s in
      if len s =? 0 then nonblank_parts parts' else s :: nonblank_parts parts'
  end.

(** [Path(s)] of pathlib on a POSIX system, held as the string [str]
    gives for it.  A leading slash is the root, exactly two leading
    slashes are kept as they are and three or more are one; of the parts
    between slashes the empty ones and the single dots are dropped, so
    that a doubled or trailing slash and a leading "./" disappear; ".."
    is kept.  A path with neither root nor part reads ".". *)
Definition SLASH : N := 47%N.
Definition DOT : N := 46%N.

Definition path_root (s : pystr) : pystr :=
  if startswith1 SLASH s then
    if startswith1 SLASH (drop 1 s) && negb (startswith1 SLASH (drop 2 s))
    then [SLASH; SLASH] else [SLASH]
  else [].

Definition path_parts (s : pystr) : list pystr :=
  filter (fun x => x <> [] /\ x <> [DOT]) (split_on SLASH s).

Definition Path (s : pystr) : pystr :=
  let p := path_root s ++ join [SLASH] (path_parts s) in
  if len p =? 0 then [DOT] else p.

(** [path.name]: the last part, empty when there is none. *)
Definition path_name (path : pystr) : pystr :=
  default [] (last (path_parts path)).

(** [path.with_suffix(path.suffix + ".tmp")]: ".tmp" follows the name;
    a path without a name (".", "/") is a [ValueError]. *)
Definition tmp_of (path : pystr) : result pystr :=
  if len (path_name path) =? 0 then raise ValueError
  else mret (path ++ str ".tmp").

(** [parse_paths], generate_talk.py 489-496. *)
Definition parse_paths (csv : pystr) : list pystr :=
  Path <$> nonblank_parts (split_on COMMA csv).

(** [_resolve_feed_paths], update_weather_feed.py 33-47: the paths of the
    command line, else those of FEED_PATHS ([env_feeds] is the value of
    the variable, empty when it is not set), else the two defaults. *)
Definition _resolve_feed_paths (cli_feeds : option (list pystr)) (env_feeds : pystr)
    : list pystr :=
  match cli_feeds with
  | Some (p :: ps) => Path <$> (p :: ps)
  | _ =>
      let env_feeds := strip env_feeds in
      if negb (len env_feeds =? 0)
      then Path <$> nonblank_parts (split_on COMMA env_feeds)
      else Path <$> default_feed_paths
  end.

(** *** update_weather_feed.py: writing the files *)

Section update_weather_feed.

Variable py_repr : json -> pystr.
Variable dumps : json -> pystr.
Variable loads : pystr -> option json.

(** Which file a path names is decided by the file system (working
    directory, "..", links), which is taken as given: [file_of p] is the
    key, in the files of this development, of the file that the path [p]
    names. *)
Variable file_of : pystr -> pystr.

(** [_atomic_write], update_weather_feed.py 26-30: the text goes to the
    temporary file, which is then renamed to the path.  Directories are
    not modelled: a [mkdir] that fails ends the call as [OpenFails]
    does, with an [OSError] before anything is written. *)
Definition _atomic_write (files : gmap pystr pystr) (path : pystr) (obj : json)
    (f : fault) (rename_fails : bool) : gmap pystr pystr * result () :=
  match tmp_of path with
  | inl e => (files, inl e)
  | inr tmp =>
      match write_text files (file_of tmp) (dumps obj ++ NEWLINE) f with
      | (files, inl e) => (files, inl e)
      | (files, inr _) => replace_file files (file_of tmp) (file_of path) rename_fails
      end
  end.

(** Lines 93-94: [_atomic_write] for every feed path, the first failure
    ending the run; [faults] gives the fate of each write and rename. *)
Fixpoint write_feeds (files : gmap pystr pystr) (feed_paths : list pystr)
    (feed : json) (faults : list (fault * bool)) : gmap pystr pystr * result () :=
  match feed_paths with
  | [] => (files, mret ())
  | p :: ps =>
      let f := hd (NoFault, false) faults in
      match _atomic_write files p feed (fst f) (snd f) with
      | (files, inl e) => (files, inl e)
      | (files, inr _) => write_feeds files ps feed (tl faults)
      end
  end.

(** [main] of update_weather_feed.py, lines 50-96: [cli_feeds] is
    [args.feed] ([None] without [--feed]), [env_feeds] the value of
    FEED_PATHS, [latest] is [args.latest]. *)
Definition main (files : gmap pystr pystr) (cli_feeds : option (list pystr))
    (env_feeds latest : pystr) (args : feed_args) (now : pystr)
    (faults : list (fault * bool)) : gmap pystr pystr * result () :=
  let feed_paths := _resolve_feed_paths cli_feeds env_feeds in
  let latest_path := Path latest in
  let feed := first_loaded (read_stored loads files ∘ file_of <$> feed_paths) in
  match update_feed py_repr feed args now with
  | inl e => (files, inl e)
  | inr (feed, entry) =>
      match write_feeds files feed_paths feed faults with
      | (files, inl e) => (files, inl e)
      | (files, inr _) =>
          let f := hd (NoFault, false) (drop (length feed_paths) faults) in
          _atomic_write files latest_path entry (fst f) (snd f)
      end
  end.

(** The paths of a run keep apart when no temporary file of the run is
    the file of a feed path or of the latest pointer, and the latest
    pointer is not the file of a feed path either. *)
Definition paths_apart (feed_paths : list pystr) (latest_path : pystr) : Prop :=
  (forall p tmp q, p ∈ latest_path :: feed_paths -> tmp_of p = inr tmp ->
                   q ∈ latest_path :: feed_paths -> file_of tmp <> file_of q)
  /\ file_of latest_path ∉ (file_of <$> feed_paths).

End update_weather_feed.

(** A word: not empty, no whitespace in it. *)
Definition word (w : pystr) : Prop := w <> [] /\ Forall (fun c => is_space c = false) w.

(** The five opening quotes do not start [x]. *)
Definition unquoted (x : pystr) : Prop :=
  Forall (fun pair => startswith1 (fst pair) x = false) QUOTE_PAIRS.

(** A text that [parse_paths] makes a path of: not empty, no whitespace
    at either end, no comma. *)
Definition path_like (p : pystr) : Prop :=
  p <> [] /\ strip p = p /\ COMMA ∉ p.

(** The items of a feed object as the log append reads them: the list
    itself, or the [items] list of a dict. *)
Definition feed_items (feed_obj : json) : list json :=
  match feed_obj with
  | JArr l => l
  | JObj m =>
      match m !! str "items" with
      | Some (JArr l) => l
      | _ => []
      end
  | JAtom _ => []
  end.

(** ** rag.py: ingestion *)

(** [HTTPException(status_code, detail)] *)
Inductive http_exception : Type :=
  | HTTPException (status_code : Z) (detail : pystr).

Section ingest.

(** [rag_store.add_document] belongs to the vector store, which is not
    part of this development: [add_document calls text] tells, given the
    texts of the calls made before, whether the call raises, and then
    gives the [str] of the exception. *)
Variable add_document : list pystr -> pystr -> option pystr.

(** The loop of rag.py 323-329 with [successes], [last_error] and the
    calls made as loop state. *)
Fixpoint ingest_loop (docs : list pystr) (calls : list pystr) (successes : Z)
    (last_error : option pystr) : Z * option pystr * list pystr :=
  match docs with
  | [] => (successes, last_error, calls)
  | text :: docs' =>
      match add_document calls text with
      | None => ingest_loop docs' (calls ++ [text]) (successes + 1) last_error
      | Some exc => ingest_loop docs' (calls ++ [text]) successes (Some exc)
      end
  end.

(** [ingest_rag], rag.py 306-337: the response or the exception, and the
    calls made to the store.  400 is [HTTPStatus.BAD_REQUEST], 502 is
    [HTTPStatus.BAD_GATEWAY]. *)
Definition ingest_rag (documents : list pystr)
    : (http_exception + Z) * list pystr :=
  let docs := nonblank_parts documents in
  match docs with
  | [] => (inl (HTTPException 400 (str "No documents provided.")), [])
  | _ =>
      match ingest_loop docs [] 0 None with
      | (successes, last_error, calls) =>
          match last_error with
          | Some exc =>
              if successes =? 0
              then (inl (HTTPException 502 (str "Document ingestion failed: " ++ exc)),
                    calls)
              else (inr successes, calls)
          | None => (inr successes, calls)
          end
      end
  end.

End ingest.

(** A store that refuses every text that starts with "x". *)
Definition refuses_x (calls : list pystr) (text : pystr) : option pystr :=
  if startswith1 120 text then Some (str "refused") else None.

(** ** generate_talk.py: the topic, hour by hour *)

(** A generator whose first draw is [r]. *)
Definition draws_first (r : nat) : Z * Z * Z * Z -> nat -> nat -> nat :=
  fun _ i _ => match i with O => r | _ => 0%nat end.

(** ** fetch_weather.py: the compact forecast *)

(** [d.get(k)] on a JSON object. *)
Definition json_get (d : gmap pystr json) (k : pystr) : json :=
  default JNone (d !! k).

(** The block kept of one [timeSeries] block, lines 104-110; blocks that
    are not dicts are skipped. *)
Definition compact_block (block : json) : option json :=
  match block with
  | JObj block =>
      Some (JObj (<[str "areas" := json_get block (str "areas")]>
                    {[ str "timeDefines" := json_get block (str "timeDefines") ]}))
  | _ => None
  end.

(** [_pick_time_series], fetch_weather.py 80-114. *)
Definition _pick_time_series (forecast_obj : json) : gmap pystr json :=
  match forecast_obj with
  | JArr (JObj first :: _) =>
      let out : gmap pystr json :=
        <[str "targetArea" := json_get first (str "targetArea")]>
          (<[str "reportDatetime" := json_get first (str "reportDatetime")]>
             {[ str "publishingOffice" := json_get first (str "publishingOffice") ]}) in
      match json_get first (str "timeSeries") with
      | JArr (b :: ts) =>
          <[str "timeSeries" := JArr (omap compact_block (slice_to 3 (b :: ts)))]> out
      | _ => out
      end
  | _ => ∅
  end.

(** ** generate_talk.py: the payload *)

Section build_payload.

(** [json.loads] ([None] when it raises) and [json.dumps(obj,
    ensure_ascii=False)], taken as given. *)
Variable loads : pystr -> option json.
Variable dumps_line : json -> pystr.

(** Lines 338-344: the snapshot as a dict. *)
Definition snapshot_dict (snap_json_raw : pystr) : gmap pystr json :=
  let live_weather :=
    if negb (len (strip snap_json_raw) =? 0)
    then default (JObj ∅) (loads snap_json_raw)
    else JObj ∅ in
  match live_weather with
  | JObj d => d
  | _ => {[ str "_raw" := JStr snap_json_raw ]}
  end.

(** Lines 346-357: time zone, clock and source are put into the
    snapshot.  [cur] is the dict that [live_weather] holds under
    [current], so setting [cur["time"]] changes that entry. *)
Definition inject_now (live_weather : gmap pystr json) (tz_name now_iso : pystr)
    : gmap pystr json :=
  let timezone :=
    json_or (json_or (JStr tz_name) (json_get live_weather (str "timezone")))
            (JStr (str "Asia/Tokyo")) in
  let live_weather := <[str "timezone" := timezone]> live_weather in
  let cur := match json_get live_weather (str "current") with
             | JObj cur => cur
             | _ => ∅
             end in
  let live_weather :=
    <[str "current" := JObj (<[str "time" := JStr now_iso]> cur)]> live_weather in
  let source := json_or (json_get live_weather (str "source")) (JStr (str "jma")) in
  <[str "source" := source]> live_weather.

(** [build_payload], lines 323-367. *)
Definition build_payload (question : pystr) (top_k max_words : Z)
    (snap_json_raw now_iso tz_name output_style : pystr) (include_debug : bool)
    : gmap pystr json :=
  let live_weather := inject_now (snapshot_dict snap_json_raw) tz_name now_iso in
  <[str "include_debug" := JAtom (PBool include_debug)]>
    (<[str "use_live_weather" := JAtom (PBool false)]>
       (<[str "extra_context" := JStr (dumps_line (JObj live_weather))]>
          (<[str "output_style" := JStr output_style]>
             (<[str "max_words" := JAtom (PInt max_words)]>
                (<[str "top_k" := JAtom (PInt top_k)]>
                   {[ str "question" := JStr question ]}))))).

End build_payload.

(** * Properties *)

(** ** The length cap *)

Lemma len_nonneg {A} (s : list A) : 0 <= len s.
Proof. unfold len. lia. Qed.

Lemma len_app {A} (s t : list A) : len (s ++ t) = len s + len t.
Proof. unfold len. rewrite length_app. lia. Qed.

Lemma slice_to_nonneg {A} (n : Z) (s : list A) :
  0 <= n -> slice_to n s = take (Z.to_nat n) s.
Proof. intros Hn. unfold slice_to. destruct (Z.leb_spec 0 n); [done | lia]. Qed.

Lemma len_slice_to {A} (n : Z) (s : list A) :
  0 <= n -> len (slice_to n s) = Z.min n (len s).
Proof.
  intros Hn. rewrite slice_to_nonneg by done.
  unfold len. rewrite length_take. lia.
Qed.

Lemma contains_elem_of c s : contains c s = true <-> c ∈ s.
Proof.
  unfold contains. rewrite existsb_exists. split.
  - intros (x & Hin & Heq). apply N.eqb_eq in Heq. subst x.
    by apply list_elem_of_In.
  - intros Hin. exists c. split; [by apply list_elem_of_In | apply N.eqb_refl].
Qed.

Lemma before_last_Some c s p :
  before_last c s = Some p -> exists q, s = p ++ c :: q /\ c ∉ q.
Proof.
  revert p. induction s as [|x s IH]; intros p; simpl; [done |].
  destruct (before_last c s) as [p' |] eqn:Hbl.
  - intros [= <-]. destruct (IH p' eq_refl) as (q & -> & Hq). by exists q.
  - destruct (N.eqb_spec x c) as [-> | Hne]; [| done].
    intros [= <-]. exists s. split; [done |].
    clear IH. induction s as [|y s IH]; [apply not_elem_of_nil |].
    simpl in Hbl. destruct (before_last c s); [done |].
    destruct (N.eqb_spec y c); [done |].
    apply not_elem_of_cons. split; [congruence | by apply IH].
Qed.

Lemma before_last_None c s : before_last c s = None <-> c ∉ s.
Proof.
  induction s as [|x s IH]; simpl.
  - split; [intros _; apply not_elem_of_nil | done].
  - destruct (before_last c s) as [p |].
    + split; [done |]. intros Hn. apply not_elem_of_cons in Hn as [_ Hn].
      by apply IH in Hn.
    + destruct (N.eqb_spec x c) as [-> | Hne].
      * split; [done |]. intros Hn. by apply not_elem_of_cons in Hn as [? _].
      * split; [| done]. intros _. apply not_elem_of_cons.
        split; [congruence | by apply IH].
Qed.

Lemma before_last_app c p q :
  c ∉ q -> before_last c (p ++ c :: q) = Some p.
Proof.
  intros Hq. induction p as [|x p IH]; simpl.
  - apply before_last_None in Hq. rewrite Hq. by rewrite N.eqb_refl.
  - by rewrite IH.
Qed.

Lemma length_rsplit1_head c s : (length (rsplit1_head c s) <= length s)%nat.
Proof.
  unfold rsplit1_head. destruct (before_last c s) as [p |] eqn:Hbl; simpl; [| lia].
  apply before_last_Some in Hbl as (q & -> & _). rewrite length_app. lia.
Qed.

Lemma length_rstrip s : (length (rstrip s) <= length s)%nat.
Proof.
  induction s as [|x s IH]; simpl; [lia |].
  destruct (rstrip s); [destruct (is_space x) |]; simpl in *; lia.
Qed.

(** What a capped text looks like, and that it fits. *)
Lemma enforce_cut text m :
  0 < m -> m < len text ->
  exists body, finalize text m = body ++ [ELLIPSIS] /\ len body <= m - 1.
Proof.
  intros Hm Hlen. unfold _enforce_max_chars.
  destruct (Z.leb_spec m 0); [lia |]. destruct (Z.leb_spec (len text) m); [lia |].
  simpl. eexists. split; [reflexivity |].
  set (cut := slice_to (m - 1) text).
  assert (Hcut : len cut <= m - 1).
  { unfold cut. rewrite len_slice_to by lia. lia. }
  unfold len in *.
  pose proof (length_rstrip (if contains SPACE cut then rsplit1_head SPACE cut else cut)).
  pose proof (length_rsplit1_head SPACE cut).
  destruct (contains SPACE cut); lia.
Qed.

Lemma enforce_short text m : len text <= m -> finalize text m = text.
Proof.
  intros Hlen. unfold _enforce_max_chars.
  destruct (Z.leb_spec (len text) m); [| lia]. by rewrite orb_true_r.
Qed.

(** C10. For [max_chars >= 1] the result is never longer than
    [max(len(text), max_chars)]: a text longer than the cap comes back
    with at most [max_chars] characters, a text within the cap comes back
    unchanged. *)
Theorem enforce_max_chars_length (text : pystr) (max_chars : Z) :
  1 <= max_chars ->
  len (finalize text max_chars) <= Z.max (len text) max_chars
  /\ (max_chars < len text -> len (finalize text max_chars) <= max_chars)
  /\ (len text <= max_chars -> finalize text max_chars = text).
Proof.
  intros Hm.
  assert (Hlong : max_chars < len text -> len (finalize text max_chars) <= max_chars).
  { intros Hlen. destruct (enforce_cut text max_chars) as (body & -> & Hb); [lia .. |].
    rewrite len_app. unfold len at 2. simpl. lia. }
  split; [| split; [done | apply enforce_short]].
  destruct (Z.le_gt_cases (len text) max_chars) as [Hle | Hgt].
  - rewrite enforce_short by done. lia.
  - specialize (Hlong ltac:(lia)). lia.
Qed.

Lemma enforce_max_chars_length_witness :
  len (finalize (str "The quick brown fox jumps") 10) <= 10.
Proof.
  destruct (enforce_max_chars_length (str "The quick brown fox jumps") 10) as (_ & H & _).
  - lia.
  - apply H. vm_compute. reflexivity.
Defined.

(** C5. Capping is idempotent: for every text [x] and every [N > 0],
    [finalize(finalize(x, N), N) = finalize(x, N)]. *)
Theorem enforce_max_chars_idempotent (x : pystr) (N : Z) :
  0 < N ->
  _enforce_max_chars (_enforce_max_chars x N) N = _enforce_max_chars x N.
Proof.
  intros HN. apply enforce_short.
  destruct (Z.le_gt_cases (len x) N) as [Hle | Hgt].
  - by rewrite enforce_short.
  - destruct (enforce_cut x N) as (body & -> & Hb); [lia .. |].
    rewrite len_app. unfold len at 2. simpl. lia.
Qed.

Lemma enforce_max_chars_idempotent_witness :
  finalize (finalize (str "The quick brown fox jumps") 10) 10
  = finalize (str "The quick brown fox jumps") 10.
Proof. apply enforce_max_chars_idempotent. lia. Defined.

(** C4, as the specification states its example: the capped text would be
    "The quick…".  The code returns "The…": the 9-character prefix
    "The quick" holds a space, so the back-off drops its last word. *)
Lemma enforce_max_chars_example_refuted :
  finalize (str "The quick brown fox jumps") 10 <> str "The quick" ++ [ELLIPSIS].
Proof. vm_compute. discriminate. Qed.

(** C4, amended. A text longer than [max_chars > 0] is cut to its first
    [max_chars - 1] characters; when that prefix holds a space it is cut
    again before its last space; trailing whitespace is stripped and one
    ellipsis appended.  So [finalize("The quick brown fox jumps", 10)] is
    "The…".  For [max_chars <= 0] the text is returned as it is. *)
Theorem enforce_max_chars_truncates :
  (forall (text : pystr) (max_chars : Z),
      0 < max_chars -> max_chars < len text ->
      let cut := take (Z.to_nat (max_chars - 1)) text in
      (SPACE ∉ cut -> finalize text max_chars = rstrip cut ++ [ELLIPSIS])
      /\ (forall p q, cut = p ++ SPACE :: q -> SPACE ∉ q ->
             finalize text max_chars = rstrip p ++ [ELLIPSIS]))
  /\ finalize (str "The quick brown fox jumps") 10 = str "The" ++ [ELLIPSIS]
  /\ (forall (text : pystr) (max_chars : Z),
        max_chars <= 0 -> finalize text max_chars = text).
Proof.
  split; [| split].
  - intros text m Hm Hlen cut. unfold _enforce_max_chars.
    destruct (Z.leb_spec m 0); [lia |]. destruct (Z.leb_spec (len text) m); [lia |].
    simpl. rewrite slice_to_nonneg by lia. fold cut. split.
    + intros Hno. destruct (contains SPACE cut) eqn:Hc; [| done].
      apply contains_elem_of in Hc. done.
    + intros p q Hcut Hq.
      destruct (contains SPACE cut) eqn:Hc.
      * unfold rsplit1_head. rewrite Hcut. by rewrite before_last_app.
      * exfalso. assert (Hin : SPACE ∈ cut) by (rewrite Hcut; set_solver).
        apply contains_elem_of in Hin. congruence.
  - vm_compute. reflexivity.
  - intros text m Hm. unfold _enforce_max_chars.
    by destruct (Z.leb_spec m 0); [| lia].
Qed.

(** ** Sorting *)

Section sort_by.
  Context {A : Type} (le : A -> A -> bool).
  Hypothesis le_total : forall x y, le x y = false -> le y x = true.
  Hypothesis le_trans : forall x y z, le x y = true -> le y z = true -> le x z = true.

Lemma insert_by_Permutation x l : insert_by le x l ≡ₚ x :: l.
Proof using Type.
  induction l as [|y l IH]; simpl; [done |].
  destruct (le x y); [done |]. rewrite IH. apply Permutation_swap.
Qed.

Lemma sort_by_Permutation l : sort_by le l ≡ₚ l.
Proof using Type.
  induction l as [|x l IH]; simpl; [done |].
  rewrite insert_by_Permutation. by rewrite IH.
Qed.

Lemma insert_by_StronglySorted x l :
  StronglySorted (fun a b => le a b = true) l ->
  StronglySorted (fun a b => le a b = true) (insert_by le x l).
Proof using le_total le_trans.
  induction 1 as [|y l Hs IH Hall]; simpl.
  - repeat constructor.
  - destruct (le x y) eqn:Hxy.
    + constructor; [by constructor |]. constructor; [done |].
      eapply Forall_impl; [exact Hall |]. intros z Hz. by eapply le_trans.
    + constructor; [done |]. rewrite insert_by_Permutation.
      constructor; [by apply le_total | done].
Qed.

Lemma sort_by_StronglySorted l :
  StronglySorted (fun a b => le a b = true) (sort_by le l).
Proof using le_total le_trans.
  induction l as [|x l IH]; simpl; [constructor |].
  by apply insert_by_StronglySorted.
Qed.

End sort_by.

Lemma StronglySorted_sublist {A} (R : relation A) (l k : list A) :
  l `sublist_of` k -> StronglySorted R k -> StronglySorted R l.
Proof.
  induction 1 as [|x l k Hsub IH|x l k Hsub IH]; intros Hs.
  - constructor.
  - apply StronglySorted_inv in Hs as [Hs Hall]. constructor; [by apply IH |].
    apply Forall_forall. intros y Hy. rewrite Forall_forall in Hall.
    apply Hall. by eapply elem_of_sublist.
  - apply StronglySorted_inv in Hs as [Hs _]. by apply IH.
Qed.

Lemma StronglySorted_impl {A} (R1 R2 : relation A) (l : list A) :
  (forall x y, R1 x y -> R2 x y) -> StronglySorted R1 l -> StronglySorted R2 l.
Proof.
  intros HR. induction 1 as [|x l Hs IH Hall]; constructor; [done |].
  eapply Forall_impl; [exact Hall | auto].
Qed.

Lemma by_distance_total x y : by_distance x y = false -> by_distance y x = true.
Proof.
  unfold by_distance. intros Hf. apply Qle_bool_iff.
  destruct (Qlt_le_dec (distance x) (distance y)) as [Hlt | Hle].
  - apply Qlt_le_weak in Hlt. apply Qle_bool_iff in Hlt. congruence.
  - done.
Qed.

Lemma by_distance_trans x y z :
  by_distance x y = true -> by_distance y z = true -> by_distance x z = true.
Proof.
  unfold by_distance. rewrite !Qle_bool_iff. apply Qle_trans.
Qed.

(** ** The diversifier *)

Lemma diversify_loop_take top_k seen acc cs :
  len acc < top_k ->
  diversify_loop top_k seen acc cs
  = acc ++ take (Z.to_nat (top_k - len acc)) (first_of_each seen cs).
Proof.
  revert seen acc. induction cs as [|c cs IH]; intros seen acc Hlt; simpl.
  - by rewrite take_nil, app_nil_r.
  - case_bool_decide; [by apply IH |].
    assert (Hsnoc : len (acc ++ [c]) = len acc + 1) by apply len_app.
    rewrite Hsnoc.
    destruct (Z.leb_spec top_k (len acc + 1)) as [Hle | Hgt].
    + by replace (Z.to_nat (top_k - len acc)) with 1%nat by lia.
    + rewrite IH by lia. rewrite Hsnoc.
      replace (Z.to_nat (top_k - len acc))
        with (S (Z.to_nat (top_k - (len acc + 1)))) by lia.
      simpl. by rewrite <- app_assoc.
Qed.

Lemma first_of_each_sublist seen cs : first_of_each seen cs `sublist_of` cs.
Proof.
  revert seen. induction cs as [|c cs IH]; intros seen; simpl; [done |].
  case_bool_decide; [by apply sublist_cons | by apply sublist_skip].
Qed.

Lemma first_of_each_keys seen cs :
  NoDup (py_norm ∘ dedup_key <$> first_of_each seen cs)
  /\ (forall k, k ∈ (py_norm ∘ dedup_key <$> first_of_each seen cs) -> k ∉ seen).
Proof.
  revert seen. induction cs as [|c cs IH]; intros seen; simpl.
  - split; [constructor | by intros k ?%elem_of_nil].
  - case_bool_decide as Hin; [apply IH |].
    destruct (IH ({[py_norm (dedup_key c)]} ∪ seen)) as [Hnd Hout].
    rewrite fmap_cons. split.
    + constructor; [| done]. intros Hk. apply Hout in Hk. set_solver.
    + intros k [-> | Hk]%elem_of_cons; [done |]. apply Hout in Hk. set_solver.
Qed.

Lemma first_of_each_length seen cs :
  length (first_of_each seen cs)
  = size (list_to_set (C := gset pyval) (py_norm ∘ dedup_key <$> cs) ∖ seen).
Proof.
  revert seen. induction cs as [|c cs IH]; intros seen; simpl.
  - replace ((∅ : gset pyval) ∖ seen) with (∅ : gset pyval) by set_solver.
    by rewrite size_empty.
  - set (k := py_norm (dedup_key c)).
    set (S' := list_to_set (C := gset pyval) (py_norm ∘ dedup_key <$> cs)).
    case_bool_decide as Hin.
    + rewrite IH. fold S'. f_equal. set_solver.
    + cbn [length]. rewrite IH. fold S'.
      replace (({[k]} ∪ S') ∖ seen) with ({[k]} ∪ S' ∖ ({[k]} ∪ seen)).
      * rewrite (size_union (C := gset pyval) {[k]} (S' ∖ ({[k]} ∪ seen)))
          by set_solver.
        by rewrite size_singleton.
      * apply set_eq. intros x. rewrite !elem_of_union, !elem_of_difference,
          !elem_of_union, !elem_of_singleton.
        destruct (decide (x = k)) as [-> | Hne]; naive_solver.
Qed.

(** For [top_k >= 1] the result is the first [top_k] chunks, in order of
    distance, that open a new key. *)
Lemma diversify_take chunks top_k :
  1 <= top_k ->
  diversify chunks top_k
  = take (Z.to_nat top_k) (first_of_each ∅ (sort_by by_distance chunks)).
Proof.
  intros Hk. unfold diversify. rewrite diversify_loop_take by (unfold len; simpl; lia).
  simpl. replace (top_k - len []) with top_k by (unfold len; simpl; lia).
  destruct (take _ _) eqn:Htake; [| done].
  destruct (sort_by by_distance chunks) as [|c cs] eqn:Hsort.
  - pose proof (sort_by_Permutation by_distance chunks) as Hp. rewrite Hsort in Hp.
    apply Permutation_nil_l in Hp. subst chunks.
    rewrite slice_to_nonneg by lia. by rewrite take_nil.
  - simpl in Htake. rewrite bool_decide_eq_false_2 in Htake by set_solver.
    destruct (Z.to_nat top_k) eqn:Hn; [lia | done].
Qed.

(** C1, as the specification words the dedup key ([file] if present, else
    [doc_id] if present, else the first 40 characters of the text).  Two
    chunks with an empty [file] and the doc ids "a" and "b" share the worded
    key (the empty string), yet [or] passes over the empty string and the
    code keeps both. *)
Lemma diversify_present_key_refuted :
  ~ (len (diversify chunks_empty_file 2)
       = Z.min 2 (distinct_keys spec_dedup_key chunks_empty_file)
     /\ NoDup (spec_dedup_key <$> diversify chunks_empty_file 2)).
Proof.
  intros [Hlen _]. vm_compute in Hlen. discriminate.
Qed.

(** C1, amended. With the dedup key the [file] entry if it is truthy
    (present and not empty), else the [doc_id] entry if it is truthy, else
    the first 40 characters of the text: for every candidate list and every
    [want >= 1] the result has [min(want, number of distinct keys)]
    elements, is ordered by non-decreasing distance, and no two of its
    elements have the same key. *)
Theorem diversify_distinct_sorted (chunks : list RAGChunk) (want : Z) :
  1 <= want ->
  len (diversify chunks want) = Z.min want (distinct_keys dedup_key chunks)
  /\ StronglySorted (fun a b => (distance a <= distance b)%Q) (diversify chunks want)
  /\ NoDup (dedup_key <$> diversify chunks want)
  /\ NoDup (py_norm ∘ dedup_key <$> diversify chunks want).
Proof.
  intros Hk. rewrite diversify_take by done.
  set (sorted := sort_by by_distance chunks).
  assert (Hsub : take (Z.to_nat want) (first_of_each ∅ sorted) `sublist_of` sorted).
  { etrans; [apply sublist_take | apply first_of_each_sublist]. }
  assert (Hnd : NoDup (py_norm ∘ dedup_key <$> take (Z.to_nat want) (first_of_each ∅ sorted))).
  { apply (sublist_NoDup _ (py_norm ∘ dedup_key <$> first_of_each ∅ sorted)).
    - apply (first_of_each_keys ∅ sorted).
    - apply fmap_sublist, sublist_take. }
  split; [| split; [| split]].
  - unfold len, distinct_keys. rewrite length_take, first_of_each_length.
    replace (list_to_set (C := gset pyval) (py_norm ∘ dedup_key <$> sorted) ∖ ∅)
      with (list_to_set (C := gset pyval) (py_norm ∘ dedup_key <$> chunks)).
    + lia.
    + rewrite difference_empty_L. unfold sorted.
      by rewrite (sort_by_Permutation by_distance chunks).
  - eapply StronglySorted_sublist; [exact Hsub |].
    eapply StronglySorted_impl;
      [| apply (sort_by_StronglySorted by_distance by_distance_total by_distance_trans)].
    intros x y. unfold by_distance. apply Qle_bool_iff.
  - rewrite list_fmap_compose in Hnd. by apply NoDup_fmap_1 in Hnd.
  - done.
Qed.

Lemma diversify_distinct_sorted_witness :
  len (diversify chunks_empty_file 2) = 2.
Proof.
  destruct (diversify_distinct_sorted chunks_empty_file 2) as [H _]; [lia |].
  rewrite H. vm_compute. reflexivity.
Defined.

(** ** The rolling feed *)

Lemma pystr_leb_total a b : pystr_leb a b = false -> pystr_leb b a = true.
Proof.
  revert b. induction a as [|x a IH]; intros [|y b]; simpl; try done.
  destruct (N.ltb_spec x y), (N.ltb_spec y x), (N.eqb_spec x y), (N.eqb_spec y x);
    simpl; try done; try lia. apply IH.
Qed.

Lemma pystr_leb_trans a b c :
  pystr_leb a b = true -> pystr_leb b c = true -> pystr_leb a c = true.
Proof.
  revert b c. induction a as [|x a IH]; intros [|y b] [|z c]; simpl; try done.
  destruct (N.ltb_spec x y), (N.ltb_spec y z), (N.ltb_spec x z),
    (N.eqb_spec x y), (N.eqb_spec y z), (N.eqb_spec x z);
    simpl; try done; try lia. apply IH.
Qed.

Lemma for_each_pure {A B} (f : A -> result B) (g : A -> B) (xs : list A) :
  (forall x, x ∈ xs -> f x = inr (g x)) -> for_each f xs = inr (g <$> xs).
Proof.
  induction xs as [|x xs IH]; intros Hf; simpl; [done |].
  rewrite Hf by set_solver. simpl. rewrite IH by set_solver. done.
Qed.

Lemma insert_by_fmap {A B K} (le : K -> K -> bool) (k : A -> K) (g : A -> K * B) x xs :
  (forall a, fst (g a) = k a) ->
  insert_by (fun a b => le (fst a) (fst b)) (g x) (g <$> xs)
  = g <$> insert_by (fun a b => le (k a) (k b)) x xs.
Proof.
  intros Hg. induction xs as [|y xs IH]; csimpl; [done |].
  rewrite !Hg. destruct (le (k x) (k y)); csimpl; [done | by rewrite IH].
Qed.

Lemma sort_by_fmap {A B K} (le : K -> K -> bool) (k : A -> K) (g : A -> K * B) xs :
  (forall a, fst (g a) = k a) ->
  sort_by (fun a b => le (fst a) (fst b)) (g <$> xs)
  = g <$> sort_by (fun a b => le (k a) (k b)) xs.
Proof.
  intros Hg. induction xs as [|x xs IH]; csimpl; [done |].
  rewrite IH. by apply insert_by_fmap.
Qed.

Lemma filter_fmap_keyed {A B K} `{EqDecision K} (k : A -> K) (g : A -> K * B) (d : K)
    (xs : list A) :
  (forall a, fst (g a) = k a) ->
  filter (fun dx => fst dx <> d) (g <$> xs) = g <$> filter (fun x => k x <> d) xs.
Proof.
  intros Hg. induction xs as [|x xs IH]; csimpl; [done |].
  rewrite !filter_cons, IH, Hg. by destruct (decide (k x <> d)).
Qed.

Section rolling_feed.

Variable py_repr : json -> pystr.

Local Abbreviation date_of := (date_of py_repr).
Local Abbreviation spec_upsert := (spec_upsert py_repr).
Local Abbreviation update_feed := (update_feed py_repr).
Local Abbreviation upserts := (upserts py_repr).
Local Abbreviation item_date := (item_date py_repr).

(** Dates in decreasing order. *)
Local Abbreviation date_desc :=
  (StronglySorted (fun a b => pystr_leb (date_of b) (date_of a) = true)).

Lemma item_date_dict x : item_date (JObj x) = inr (date_of x).
Proof. reflexivity. Qed.

Lemma date_of_make_entry args : date_of (make_entry args) = arg_date args.
Proof.
  unfold date_of, make_entry.
  destruct (negb _); repeat (rewrite lookup_insert_ne by done);
    by rewrite lookup_singleton_eq.
Qed.

Lemma keyed_items (xs : list (gmap pystr json)) :
  for_each (fun x => d ← item_date x; mret (d, x)) (JObj <$> xs)
  = inr ((fun x => (date_of x, JObj x)) <$> xs).
Proof.
  rewrite (for_each_pure _ (fun j => match j with
                                     | JObj x => (date_of x, j)
                                     | _ => ([], j)
                                     end)).
  - by rewrite <- list_fmap_compose.
  - intros j (x & -> & _)%list_elem_of_fmap. done.
Qed.

Lemma items_read_list m l :
  m !! str "items" = Some (JArr l) -> items_read m = JArr l.
Proof. intros H. unfold items_read. rewrite H. by destruct l. Qed.

(** On a feed dict whose items are dicts the code performs the worded
    upsert. *)
Lemma update_feed_refines m xs args now :
  items_read m = JArr (JObj <$> xs) ->
  exists m',
    update_feed (JObj m) args now = inr (JObj m', JObj (make_entry args))
    /\ m' !! str "items"
       = Some (JArr (JObj <$> spec_upsert xs (arg_date args) (make_entry args)
                                (arg_limit args)))
    /\ m' !! str "updated_at" = Some (JStr now).
Proof.
  intros Hitems. unfold update_feed.
  change (dict_get (JObj m) (str "items") JNone)
    with (inr (B := json) (A := exn) (default JNone (m !! str "items"))).
  cbn [mbind result_bind]. fold (items_read m). rewrite Hitems.
  cbn [py_list mret result_ret mbind result_bind]. rewrite keyed_items.
  cbn [mbind result_bind].
  rewrite (filter_fmap_keyed date_of) by done.
  rewrite <- list_fmap_compose.
  change ((snd ∘ (fun x => (date_of x, JObj x))) <$> ?l) with (JObj <$> l).
  set (kept := filter (fun x => date_of x <> arg_date args) xs).
  assert (Hsort : sort_by_date_desc py_repr ((JObj <$> kept) ++ [JObj (make_entry args)])
    = inr (JObj <$> sort_by (fun a b => pystr_leb (date_of b) (date_of a))
                     (kept ++ [make_entry args]))).
  { unfold sort_by_date_desc.
    change ((JObj <$> kept) ++ [JObj (make_entry args)])
      with ((JObj <$> kept) ++ (JObj <$> [make_entry args])).
    rewrite <- fmap_app, keyed_items. cbn [mbind result_bind mret result_ret].
    f_equal.
    rewrite (sort_by_fmap (fun a b => pystr_leb b a) date_of) by done.
    by rewrite <- list_fmap_compose. }
  rewrite Hsort. cbn [mbind result_bind mret result_ret].
  eexists. split; [reflexivity |].
  rewrite slice_to_nonneg by lia. rewrite <- fmap_take.
  split.
  - destruct (negb _); repeat (rewrite lookup_insert_ne by done);
      by rewrite lookup_insert_eq.
  - destruct (negb _); repeat (rewrite lookup_insert_ne by done);
      by rewrite lookup_insert_eq.
Qed.

Lemma spec_upsert_sorted xs date entry limit :
  date_desc (spec_upsert xs date entry limit).
Proof.
  unfold spec_upsert. eapply StronglySorted_sublist; [apply sublist_take |].
  apply sort_by_StronglySorted.
  - intros x y. apply pystr_leb_total.
  - intros x y z Hxy Hyz. by eapply pystr_leb_trans.
Qed.

Lemma spec_upsert_length xs date entry limit :
  len (spec_upsert xs date entry limit) <= Z.max 1 limit.
Proof. unfold spec_upsert, len. rewrite length_take. lia. Qed.

Lemma spec_upsert_elem_of xs date entry limit y :
  y ∈ spec_upsert xs date entry limit ->
  y = entry \/ (y ∈ xs /\ date_of y <> date).
Proof.
  unfold spec_upsert. intros Hy.
  eapply elem_of_sublist in Hy; [| apply sublist_take].
  rewrite sort_by_Permutation in Hy.
  apply elem_of_app in Hy as [Hy | Hy].
  - apply list_elem_of_filter in Hy as [Hd Hy]. by right.
  - apply list_elem_of_singleton in Hy. by left.
Qed.

Lemma spec_upsert_NoDup xs date entry limit :
  date_of entry = date ->
  NoDup (date_of <$> xs) -> NoDup (date_of <$> spec_upsert xs date entry limit).
Proof.
  intros He Hnd. unfold spec_upsert.
  eapply sublist_NoDup; [| apply fmap_sublist, sublist_take].
  rewrite sort_by_Permutation, fmap_app. apply NoDup_app. split; [| split].
  - eapply sublist_NoDup; [exact Hnd |]. apply fmap_sublist, sublist_filter.
  - intros d (x & -> & Hx)%list_elem_of_fmap. apply list_elem_of_filter in Hx as [Hx _].
    simpl. rewrite list_elem_of_singleton. congruence.
  - simpl. apply NoDup_singleton.
Qed.

(** Every run from a feed whose items are dicts with one entry per date
    ends in such a feed, ordered and cut. *)
Lemma upserts_invariant limit runs : forall m xs,
  (forall r, r ∈ runs -> arg_limit (fst r) = limit) ->
  m !! str "items" = Some (JArr (JObj <$> xs)) ->
  NoDup (date_of <$> xs) -> date_desc xs -> len xs <= Z.max 1 limit ->
  exists m' ys,
    upserts (JObj m) runs = inr (JObj m')
    /\ m' !! str "items" = Some (JArr (JObj <$> ys))
    /\ NoDup (date_of <$> ys) /\ date_desc ys /\ len ys <= Z.max 1 limit.
Proof.
  induction runs as [|[args now] runs IH]; intros m xs Hlim Hitems Hnd Hs Hlen.
  - exists m, xs. done.
  - simpl.
    destruct (update_feed_refines m xs args now (items_read_list _ _ Hitems))
      as (m' & -> & Hm' & _).
    simpl.
    apply (IH m' (spec_upsert xs (arg_date args) (make_entry args) (arg_limit args)));
      [set_solver | exact Hm' | ..].
    + apply spec_upsert_NoDup; [apply date_of_make_entry | done].
    + apply spec_upsert_sorted.
    + rewrite <- (Hlim (args, now)) by set_solver. apply spec_upsert_length.
Qed.

(** C2, amended. On every feed dict whose items are dicts (a missing or
    falsy [items] reading as none), for every [maxItems] and every new
    entry, the rolling upsert drops the items of the new entry's date,
    adds the entry, orders all items by date descending and cuts to
    [max(1, maxItems)] items: the result is ordered, that short, holds
    the new date in the new entry only, and keeps one entry per date if
    the feed had one.  Hence every sequence of upserts on a feed that
    starts absent, and every sequence of one upsert or more on a feed
    that holds one entry per date, leaves one entry per date, in
    descending order of date, at most [max(1, maxItems)] of them; with
    [maxItems = 2], the dates 2024-01-01, 2024-01-02, 2024-01-03 leave
    the entries of 2024-01-03 and 2024-01-02. *)
Theorem rolling_upsert_invariant :
  (forall m xs args now,
      items_read m = JArr (JObj <$> xs) ->
      let ys := spec_upsert xs (arg_date args) (make_entry args) (arg_limit args) in
      (exists m', update_feed (JObj m) args now = inr (JObj m', JObj (make_entry args))
                  /\ m' !! str "items" = Some (JArr (JObj <$> ys)))
      /\ date_desc ys
      /\ len ys <= Z.max 1 (arg_limit args)
      /\ (forall y, y ∈ ys -> date_of y = arg_date args -> y = make_entry args)
      /\ (NoDup (date_of <$> xs) -> NoDup (date_of <$> ys)))
  /\ (forall limit runs,
        (forall r, r ∈ runs -> arg_limit (fst r) = limit) ->
        exists m ys,
          upserts (first_loaded [Absent]) runs = inr (JObj m)
          /\ m !! str "items" = Some (JArr (JObj <$> ys))
          /\ NoDup (date_of <$> ys) /\ date_desc ys /\ len ys <= Z.max 1 limit)
  /\ (forall limit run runs m xs,
        (forall r, r ∈ run :: runs -> arg_limit (fst r) = limit) ->
        items_read m = JArr (JObj <$> xs) -> NoDup (date_of <$> xs) ->
        exists m' ys,
          upserts (JObj m) (run :: runs) = inr (JObj m')
          /\ m' !! str "items" = Some (JArr (JObj <$> ys))
          /\ NoDup (date_of <$> ys) /\ date_desc ys /\ len ys <= Z.max 1 limit)
  /\ (exists m,
        upserts (first_loaded [Absent])
          [run_on "2024-01-01"; run_on "2024-01-02"; run_on "2024-01-03"]
        = inr (JObj m)
        /\ m !! str "items"
           = Some (JArr [JObj (make_entry (fst (run_on "2024-01-03")));
                         JObj (make_entry (fst (run_on "2024-01-02")))])).
Proof.
  split; [| split; [| split]].
  - intros m xs args now Hitems ys. split; [| split; [| split; [| split]]].
    + destruct (update_feed_refines m xs args now Hitems) as (m' & ? & ? & _). eauto.
    + apply spec_upsert_sorted.
    + apply spec_upsert_length.
    + intros y Hy Hd. apply spec_upsert_elem_of in Hy as [-> | [_ Hne]]; done.
    + apply spec_upsert_NoDup, date_of_make_entry.
  - intros limit runs Hlim. simpl.
    apply (upserts_invariant limit runs _ []); [done | ..].
    + by rewrite lookup_singleton_eq.
    + constructor.
    + constructor.
    + unfold len. simpl. lia.
  - intros limit [args now] runs m xs Hlim Hitems Hnd. simpl.
    destruct (update_feed_refines m xs args now Hitems) as (m1 & Hup & Hm1 & _).
    rewrite Hup. cbn [mbind result_bind fst].
    apply (upserts_invariant limit runs m1
             (spec_upsert xs (arg_date args) (make_entry args) (arg_limit args)));
      [set_solver | exact Hm1 | ..].
    + apply spec_upsert_NoDup; [apply date_of_make_entry | done].
    + apply spec_upsert_sorted.
    + rewrite <- (Hlim (args, now)) by set_solver. apply spec_upsert_length.
  - eexists. split; [vm_compute; reflexivity |]. vm_compute. reflexivity.
Qed.

End rolling_feed.

Lemma rolling_upsert_invariant_witness :
  exists m ys,
    upserts (fun _ => []) (first_loaded [Absent]) [run_on "2024-01-01"] = inr (JObj m)
    /\ m !! str "items" = Some (JArr (JObj <$> ys))
    /\ len ys <= 2.
Proof.
  destruct (rolling_upsert_invariant (fun _ => [])) as (_ & H & _ & _).
  destruct (H 2 [run_on "2024-01-01"]) as (m & ys & H1 & H2 & _ & _ & H3).
  - intros r Hr. apply list_elem_of_singleton in Hr. subst r. reflexivity.
  - exists m, ys. split; [exact H1 | split; [exact H2 | exact H3]].
Defined.

(** C2, as the specification words it, for every pre-existing feed.  A
    feed that holds two items dated 2024-01-02 keeps both when the entry
    of 2024-01-03 is upserted: line 78 drops the items of the new date
    only, so the feed does not come to hold one entry per date. *)
Lemma rolling_upsert_any_feed_refuted :
  exists m' ys,
    upserts (fun _ => []) feed_two_of_a_date [run_keeping_five] = inr (JObj m')
    /\ m' !! str "items" = Some (JArr (JObj <$> ys))
    /\ ~ NoDup (date_of (fun _ => []) <$> ys).
Proof.
  eexists. exists [make_entry (fst run_keeping_five);
                   item_of "2024-01-02" "rain"; item_of "2024-01-02" "sun"].
  split; [vm_compute; reflexivity |]. split; [vm_compute; reflexivity |].
  intros Hnd. apply NoDup_cons in Hnd as [_ Hnd].
  apply NoDup_cons in Hnd as [Hnot _]. apply Hnot. left.
Qed.

(** ** Reading a feed of unexpected shape *)

Lemma main_fails_on_bare_sequence py_repr dumps loads file_of files p t x l
    env_feeds latest args now faults :
  files !! file_of (Path p) = Some t -> loads t = Some (JArr (x :: l)) ->
  main py_repr dumps loads file_of files (Some [p]) env_feeds latest args now faults
  = (files, raise AttributeError).
Proof.
  intros Hp Ht. unfold main, read_stored. simpl. by rewrite Hp, Ht.
Qed.

(** C6. The rolling upsert does not survive a feed file that holds a
    non-empty bare JSON sequence: the list is truthy, becomes [feed], and
    [feed.get("items")] raises [AttributeError] before anything is
    written.  The log append reads the same content and puts the entry in
    front of it. *)
Theorem rolling_upsert_fails_on_bare_sequence
    (py_repr : json -> pystr) (x : json) (l : list json)
    (args : feed_args) (now : pystr) :
  update_feed py_repr (first_loaded [Holds (JArr (x :: l))]) args now
  = raise AttributeError
  /\ update_feed py_repr (first_loaded [bare_sequence]) args now
     = raise AttributeError
  /\ forall entry, with_entry (read_feed_obj (Holds (JArr (x :: l)))) entry
                   = JArr (entry :: x :: l).
Proof. split; [| split]; reflexivity. Qed.

(** The log append takes every content: the object it writes is a list
    that starts with the entry, or the dict read with the entry first in
    its items. *)
Lemma append_reads_any (f : stored) (entry : json) :
  (exists l, with_entry (read_feed_obj f) entry = JArr (entry :: l))
  \/ (exists m l, read_feed_obj f = JObj m
                  /\ with_entry (read_feed_obj f) entry
                     = JObj (<[str "items" := JArr (entry :: l)]> m)).
Proof.
  destruct f as [| |[v|l|m]]; simpl; eauto.
  destruct (m !! str "items") as [items|]; eauto.
Qed.

(** The rolling upsert on an absent, unreadable, empty or null feed starts
    from no items. *)
Lemma first_loaded_falsy (f : stored) :
  json_truthy (_load_json f) = false ->
  first_loaded [f] = JObj {[ str "items" := JArr [] ]}.
Proof. intros H. simpl. by rewrite H. Qed.

(** ** Writing *)

(** The temporary path is not the path. *)
Lemma tmp_path_ne (path tmp : pystr) : tmp_of path = inr tmp -> tmp <> path.
Proof.
  unfold tmp_of. destruct (len (path_name path) =? 0); [done |].
  intros [= <-] H. apply (f_equal length) in H. rewrite length_app in H.
  simpl in H. lia.
Qed.

(** [_atomic_write] leaves in the file of the destination the text that
    was there, or on success the whole new text, the temporary file
    being another file. *)
Lemma atomic_write_atomic dumps file_of files path obj f rename_fails :
  (forall tmp, tmp_of path = inr tmp -> file_of tmp <> file_of path) ->
  let data := dumps obj ++ NEWLINE in
  let out := _atomic_write dumps file_of files path obj f rename_fails in
  match snd out with
  | inl _ => fst out !! file_of path = files !! file_of path
  | inr _ => fst out !! file_of path = Some data
  end.
Proof.
  intros Hne data. unfold _atomic_write, write_text, replace_file. fold data.
  destruct (tmp_of path) as [e | tmp]; [done |].
  specialize (Hne tmp eq_refl).
  destruct f as [| |n]; simpl; [| done | by rewrite lookup_insert_ne].
  destruct rename_fails; simpl; [by rewrite lookup_insert_ne |].
  rewrite lookup_insert_eq. simpl. by rewrite lookup_insert_eq.
Qed.

(** C7. [write_json] of generate_talk.py, through which the log append
    and the latest pointer write, uses no temporary file and no rename:
    a write that fails after [n] characters leaves the first [n]
    characters of the new text at the destination.  With the feed an
    earlier run wrote at [feed_path] and a failure before the first
    character, the destination is left empty: neither the prior text nor
    the new one. *)
Theorem write_json_not_atomic
    (dumps : json -> pystr) (loads : pystr -> option json) (entry : json) :
  let files := {[ feed_path := dumps old_feed ++ NEWLINE ]} : gmap pystr pystr in
  (forall obj n,
      write_json dumps files feed_path obj (WriteFails n)
      = (<[feed_path := take n (dumps obj ++ NEWLINE)]> files, raise OSError))
  /\ (forall out, out = append_feed dumps loads files [feed_path] entry [WriteFails 0] ->
        snd out = raise OSError
        /\ fst out !! feed_path = Some []
        /\ fst out !! feed_path <> files !! feed_path
        /\ forall obj, fst out !! feed_path <> Some (dumps obj ++ NEWLINE))
  /\ (forall out, out = write_latest dumps files [feed_path] entry [WriteFails 0] ->
        snd out = raise OSError /\ fst out !! feed_path = Some []).
Proof.
  intros files. split; [| split].
  - reflexivity.
  - intros out ->. simpl. rewrite lookup_insert_eq. repeat split.
    + unfold files. rewrite lookup_singleton_eq. intros [= H].
      symmetry in H. by apply app_nil in H as [_ ?].
    + intros obj [= H]. symmetry in H. by apply app_nil in H as [_ ?].
  - intros out ->. simpl. by rewrite lookup_insert_eq.
Qed.

(** ** The retrying client *)

Lemma count_requests_app t1 t2 :
  count_requests (t1 ++ t2) = (count_requests t1 + count_requests t2)%nat.
Proof.
  induction t1 as [|[a|d] t1 IH]; simpl; [done | by rewrite IH | done].
Qed.

Lemma requests_with_sleeps_S d a k :
  requests_with_sleeps d a (S (S k))
  = Request a :: Sleep d :: requests_with_sleeps d (a + 1) (S k).
Proof. reflexivity. Qed.

Lemma count_requests_with_sleeps d a k :
  count_requests (requests_with_sleeps d a k) = k.
Proof.
  revert a. induction k as [|k IH]; intros a; [done |].
  destruct k as [|k]; [done |].
  rewrite requests_with_sleeps_S. cbn [count_requests]. by rewrite IH.
Qed.

Section http_loop.

Variables (platform_sleep : float -> result ()) (cfg : HttpCfg) (method url : pystr)
  (transport : Z -> response).

Local Abbreviation failed :=
  (fun i => exists e, try_request url (transport i) = inl e).

Lemma http_loop_bound attempts last trace :
  (count_requests (snd (http_loop platform_sleep cfg method url transport attempts last trace))
   <= count_requests trace + length attempts)%nat.
Proof.
  revert last trace. induction attempts as [|a attempts IH]; intros last trace; simpl.
  - lia.
  - assert (Hreq : count_requests (trace ++ [Request a]) = S (count_requests trace)).
    { rewrite count_requests_app. simpl. lia. }
    destruct (try_request url (transport a)) as [e | obj]; simpl; [| lia].
    destruct (retries cfg <=? a); simpl; [lia |].
    destruct (sleep platform_sleep (retry_sleep_s cfg)); simpl; [lia |].
    etrans; [apply IH |]. rewrite count_requests_app, Hreq. simpl. lia.
Qed.

Lemma try_request_object raw obj i :
  transport i = Returns raw (Some (JObj obj)) -> raw <> [] ->
  try_request url (transport i) = inr obj.
Proof.
  intros -> Hraw. simpl. destruct raw; [done |]. reflexivity.
Qed.

Lemma http_loop_first_success (j : nat) : forall a n last trace obj,
  sleep platform_sleep (retry_sleep_s cfg) = mret () ->
  (forall i, a <= i < a + Z.of_nat j -> failed i) ->
  try_request url (transport (a + Z.of_nat j)) = inr obj ->
  Z.of_nat j < n -> a + Z.of_nat j <= retries cfg ->
  http_loop platform_sleep cfg method url transport (seqZ a n) last trace
  = (inr obj, trace ++ requests_with_sleeps (retry_sleep_s cfg) a (S j)).
Proof.
  induction j as [|j IH]; intros a n last trace obj Hd Hfail Hok Hn Hle.
  - rewrite seqZ_cons by lia. cbn [http_loop].
    replace (a + Z.of_nat 0) with a in Hok by lia. by rewrite Hok.
  - rewrite seqZ_cons by lia. cbn [http_loop].
    destruct (Hfail a ltac:(lia)) as [e He]. rewrite He.
    destruct (Z.leb_spec (retries cfg) a); [lia |].
    rewrite Hd.
    rewrite (IH (Z.succ a) (Z.pred n) _ _ obj); try done; try lia.
    + rewrite requests_with_sleeps_S. rewrite <- !app_assoc.
      by replace (Z.succ a) with (a + 1) by lia.
    + intros i Hi. apply Hfail. lia.
    + by replace (Z.succ a + Z.of_nat j) with (a + Z.of_nat (S j)) by lia.
Qed.

Lemma http_loop_all_fail (j : nat) : forall a last trace e,
  sleep platform_sleep (retry_sleep_s cfg) = mret () ->
  a + Z.of_nat j = retries cfg ->
  (forall i, a <= i < retries cfg -> failed i) ->
  try_request url (transport (retries cfg)) = inl e ->
  http_loop platform_sleep cfg method url transport (seqZ a (Z.of_nat j + 1)) last trace
  = (raise (final_error cfg method url e),
     trace ++ requests_with_sleeps (retry_sleep_s cfg) a (S j)).
Proof.
  induction j as [|j IH]; intros a last trace e Hd Ha Hfail He.
  - rewrite seqZ_cons by lia. cbn [http_loop].
    replace a with (retries cfg) by lia. rewrite He.
    by destruct (Z.leb_spec (retries cfg) (retries cfg)); [| lia].
  - rewrite seqZ_cons by lia. cbn [http_loop].
    destruct (Hfail a ltac:(lia)) as [e' He']. rewrite He'.
    destruct (Z.leb_spec (retries cfg) a); [lia |].
    rewrite Hd.
    replace (Z.pred (Z.of_nat (S j) + 1)) with (Z.of_nat j + 1) by lia.
    rewrite (IH (Z.succ a) _ _ e); try done; try lia.
    + rewrite requests_with_sleeps_S. rewrite <- !app_assoc.
      by replace (Z.succ a) with (a + 1) by lia.
    + intros i Hi. apply Hfail. lia.
Qed.

End http_loop.

Lemma final_error_cause cfg method url e :
  cause_of (final_error cfg method url e) = Some e.
Proof. by destruct e. Qed.

(** The snippet of an HTTP error is the first 400 bytes of its body, the
    test for an empty body changing nothing. *)
Lemma final_error_http cfg method url code reason body :
  final_error cfg method url (HTTPError code reason body)
  = RuntimeError (HTTPErrorMsg code reason method url (slice_to 400 (default [] body)))
      (Some (HTTPError code reason body)).
Proof.
  unfold final_error. do 2 f_equal. by destruct (default [] body).
Qed.

(** What the [try] block raises: one of the three exceptions of the
    network, or a [RuntimeError] of its own, without a cause. *)
Lemma try_request_raises url r e :
  try_request url r = inl e ->
  match e with
  | HTTPError _ _ _ | TimeoutError _ | OtherError _ | RuntimeError _ None => True
  | _ => False
  end.
Proof.
  destruct r as [code reason body | m | m | raw parsed]; simpl;
    try (intros [= <-]; exact I).
  destruct (len raw =? 0); [intros [= <-]; exact I |].
  destruct parsed as [[v | l | obj] |]; intros [= <-]; exact I.
Qed.

(** C3, as the specification words it, for every configured delay.  With
    three retries, a delay of -1 second and a network whose first two
    answers fail and whose third is a JSON object, the executor does not
    return that object after three requests: [time.sleep] raises
    [ValueError] after the first request, outside the [try] block, and
    no second request is sent. *)
Lemma http_json_retries_any_delay_refuted :
  0 <= retries cfg_negative_sleep
  /\ third_time_lucky 2 = Returns (str "{}") (Some (JObj ∅))
  /\ http_json sleeps_any (str "POST") (str "http://localhost:8000/rag/query")
       cfg_negative_sleep third_time_lucky
     = (raise ValueError, [Request 0]).
Proof.
  split; [simpl; lia |]. split; reflexivity.
Qed.

(** C3, amended.  With [retries = N >= 0] and a delay that [time.sleep]
    accepts, the executor issues at most [N + 1] requests.  If the first
    [k - 1] requests fail and request [k <= N + 1] returns a non-empty
    body that parses to a JSON object, that object is returned after
    exactly [k] requests.  If all [N + 1] requests fail, the executor
    raises a [RuntimeError] chained to the exception [e] of the last
    request.  Its message holds what that exception said for an HTTP
    error (code, reason and the first 400 bytes of the body), for
    another exception of the network and for a [RuntimeError] of the
    [try] block (empty, non-JSON or non-object body); for a
    [TimeoutError] it is the script's own line with the configured
    timeout, and what the exception said is kept in the cause only.  In
    both cases the executor sleeps [retry_sleep_s] between each two
    requests and nowhere else. *)
Theorem http_json_retries (platform_sleep : float -> result ())
    (method url : pystr) (cfg : HttpCfg) (transport : Z -> response) :
  0 <= retries cfg -> sleep platform_sleep (retry_sleep_s cfg) = mret () ->
  let out := http_json platform_sleep method url cfg transport in
  let failed := fun i => exists e, try_request url (transport i) = inl e in
  Z.of_nat (count_requests (snd out)) <= retries cfg + 1
  /\ (forall (k : nat) raw obj,
        1 <= Z.of_nat k <= retries cfg + 1 ->
        (forall i, 0 <= i < Z.of_nat k - 1 -> failed i) ->
        transport (Z.of_nat k - 1) = Returns raw (Some (JObj obj)) -> raw <> [] ->
        out = (inr obj, requests_with_sleeps (retry_sleep_s cfg) 0 k)
        /\ count_requests (snd out) = k)
  /\ (forall e,
        (forall i, 0 <= i < retries cfg -> failed i) ->
        try_request url (transport (retries cfg)) = inl e ->
        exists msg,
          out = (raise (RuntimeError msg (Some e)),
                 requests_with_sleeps (retry_sleep_s cfg) 0 (Z.to_nat (retries cfg + 1)))
          /\ match e with
             | HTTPError code reason body =>
                 msg = HTTPErrorMsg code reason method url (slice_to 400 (default [] body))
             | TimeoutError _ => msg = TimedOut (max_time_s cfg) method url
             | OtherError e_msg => msg = RequestFailed method url (Some (Text e_msg))
             | RuntimeError inner None => msg = RequestFailed method url (Some inner)
             | _ => False
             end
          /\ count_requests (snd out) = Z.to_nat (retries cfg + 1)).
Proof.
  intros HN Hd out failed. split; [| split].
  - pose proof (http_loop_bound platform_sleep cfg method url transport
                  (range (retries cfg + 1)) None []) as Hb.
    fold (http_json platform_sleep method url cfg transport) in Hb. fold out in Hb.
    unfold range in Hb. rewrite length_seqZ in Hb. simpl in Hb. lia.
  - intros k raw obj Hk Hfail Hret Hraw.
    destruct k as [|j]; [lia |].
    assert (Hout : out = (inr obj, requests_with_sleeps (retry_sleep_s cfg) 0 (S j))).
    { unfold out, http_json, range.
      rewrite (http_loop_first_success platform_sleep cfg method url transport j 0 _ None [] obj);
        try done; try lia.
      - intros i Hi. apply Hfail. lia.
      - eapply try_request_object; [| done].
        by replace (0 + Z.of_nat j) with (Z.of_nat (S j) - 1) by lia. }
    split; [done |]. rewrite Hout. cbn [snd]. apply count_requests_with_sleeps.
  - intros e Hfail He.
    assert (Hout : out = (raise (final_error cfg method url e),
              requests_with_sleeps (retry_sleep_s cfg) 0 (Z.to_nat (retries cfg + 1)))).
    { unfold out, http_json, range.
      replace (retries cfg + 1) with (Z.of_nat (Z.to_nat (retries cfg)) + 1) at 1 by lia.
      rewrite (http_loop_all_fail platform_sleep cfg method url transport _ 0 None [] e);
        try done; try lia.
      - rewrite app_nil_l. by replace (S (Z.to_nat (retries cfg)))
          with (Z.to_nat (retries cfg + 1)) by lia. }
    assert (Hcount : count_requests (snd out) = Z.to_nat (retries cfg + 1)).
    { rewrite Hout. cbn [snd]. apply count_requests_with_sleeps. }
    apply try_request_raises in He.
    destruct e as [ | | | | | code reason body | m | m | inner [cause |]];
      try done;
      eexists; (split; [rewrite Hout, ?final_error_http; reflexivity |]);
      (split; [reflexivity | exact Hcount]).
Qed.

Lemma http_json_retries_witness :
  http_json sleeps_any (str "POST") (str "http://localhost:8000/rag/query")
    cfg_two_retries third_time_lucky
  = (inr ∅, [Request 0; Sleep 1; Request 1; Sleep 1; Request 2])
  /\ http_json sleeps_any (str "POST") (str "http://localhost:8000/rag/query")
       cfg_two_retries never_lucky
     = (raise (RuntimeError
                 (HTTPErrorMsg 503 (str "Service Unavailable") (str "POST")
                    (str "http://localhost:8000/rag/query") (str "busy"))
                 (Some (HTTPError 503 (str "Service Unavailable") (Some (str "busy"))))),
        [Request 0; Sleep 1; Request 1; Sleep 1; Request 2]).
Proof.
  split.
  - destruct (http_json_retries sleeps_any (str "POST") (str "http://localhost:8000/rag/query")
                cfg_two_retries third_time_lucky) as (_ & H & _).
    + simpl. lia.
    + reflexivity.
    + destruct (H 3%nat (str "{}") ∅) as [Hout _].
      * simpl. lia.
      * intros i Hi. exists (OtherError (str "connection refused")).
        unfold third_time_lucky. destruct (Z.ltb_spec i 2); [reflexivity | lia].
      * reflexivity.
      * discriminate.
      * exact Hout.
  - destruct (http_json_retries sleeps_any (str "POST") (str "http://localhost:8000/rag/query")
                cfg_two_retries never_lucky) as (_ & _ & H).
    + simpl. lia.
    + reflexivity.
    + destruct (H (HTTPError 503 (str "Service Unavailable") (Some (str "busy"))))
        as (msg & Hout & Hmsg & _).
      * intros i Hi. exists (OtherError (str "connection refused")).
        unfold never_lucky. simpl in Hi. destruct (Z.ltb_spec i 2); [reflexivity | lia].
      * reflexivity.
      * rewrite Hout, Hmsg. reflexivity.
Defined.

(** ** The topic selector *)

Lemma choice_elem_of {A} (draws : nat -> nat -> nat) (i : nat) (seq : list A) :
  seq <> [] -> exists x, choice draws i seq = Some x /\ x ∈ seq.
Proof.
  intros Hne. unfold choice.
  assert (Hlt : (draws i (length seq) mod length seq < length seq)%nat).
  { apply Nat.mod_upper_bound. by destruct seq. }
  apply lookup_lt_is_Some_2 in Hlt as [x Hx].
  exists x. split; [done |]. by eapply list_elem_of_lookup_2.
Qed.

Ltac by_computation :=
  match goal with |- ?P => apply (bool_decide_unpack P); vm_compute; exact I end.

Lemma same_elements_Permutation {A} `{EqDecision A} (l k : list A) :
  NoDup l -> Forall (fun x => x ∈ k) l -> length k = length l -> l ≡ₚ k.
Proof.
  intros Hnd Hall Hlen. apply submseteq_length_Permutation; [| lia].
  apply NoDup_submseteq; [done |]. by apply Forall_forall.
Qed.

Lemma families_for_Permutation (hour : Z) : families_for hour ≡ₚ TOPIC_FAMILIES.
Proof.
  unfold families_for.
  destruct (_ && _); [| destruct (_ && _); [| destruct (_ && _)]];
    (apply same_elements_Permutation; [by_computation | by_computation | reflexivity]).
Qed.

Lemma modes_for_Permutation (family : pystr) : modes_for family ≡ₚ TOPIC_MODES.
Proof.
  unfold modes_for. case_bool_decide; [| done].
  apply same_elements_Permutation; [by_computation | by_computation | reflexivity].
Qed.

Lemma pick_tips_second (r : nat) :
  pick_topic (draws_second r) morning_of_june
  = (fun mode => (str "tips", mode)) <$> modes_for (str "tips") !! (r mod 4)%nat.
Proof. reflexivity. Qed.

(** C9, as the specification states it: for the family "tips" one of the
    four modes would never be returned.  Each of the four is returned,
    at six in the morning, by a generator whose first draw is 0. *)
Lemma actionable_subset_refuted :
  ~ (exists banned, banned ∈ TOPIC_MODES
       /\ forall generator now mode,
            pick_topic generator now = Some (str "tips", mode) -> mode <> banned).
Proof.
  intros (banned & Hin & Hnever).
  assert (Hall : forall r, (r < 4)%nat ->
            forall mode, modes_for (str "tips") !! r = Some mode -> mode <> banned).
  { intros r Hr mode Hmode. apply (Hnever (draws_second r) morning_of_june).
    rewrite pick_tips_second. rewrite Nat.mod_small by done. by rewrite Hmode. }
  unfold TOPIC_MODES in Hin. simpl in Hin.
  repeat (apply elem_of_cons in Hin as [-> | Hin]).
  - by apply (Hall 1%nat ltac:(lia) (str "fact")).
  - by apply (Hall 2%nat ltac:(lia) (str "question")).
  - by apply (Hall 3%nat ltac:(lia) (str "mini_story")).
  - by apply (Hall 0%nat ltac:(lia) (str "recommendation")).
  - by apply elem_of_nil in Hin.
Qed.

(** C9, amended. For every local datetime the family is one of the eight
    families and the mode one of the four modes.  For the family "tips"
    the draw is from the same four modes in another order,
    "recommendation" first: no mode is excluded, each of the four can be
    returned. *)
Theorem pick_topic_modes :
  (forall generator now, exists family mode,
      pick_topic generator now = Some (family, mode)
      /\ family ∈ TOPIC_FAMILIES /\ mode ∈ TOPIC_MODES)
  /\ (forall family, modes_for family ≡ₚ TOPIC_MODES)
  /\ modes_for (str "tips")
     = str <$> ["recommendation"; "fact"; "question"; "mini_story"]%string
  /\ (forall mode, mode ∈ TOPIC_MODES ->
        exists generator now, pick_topic generator now = Some (str "tips", mode)).
Proof.
  split; [| split; [| split]].
  - intros generator now. unfold pick_topic.
    destruct (choice_elem_of (generator (hour_key now)) 0 (families_for (hour now)))
      as (family & -> & Hf).
    { intros Hnil. pose proof (families_for_Permutation (hour now)) as Hp.
      rewrite Hnil in Hp. by apply Permutation_nil_l in Hp. }
    destruct (choice_elem_of (generator (hour_key now)) 1 (modes_for family))
      as (mode & Hmode & Hm).
    { intros Hnil. pose proof (modes_for_Permutation family) as Hp.
      rewrite Hnil in Hp. by apply Permutation_nil_l in Hp. }
    exists family, mode. simpl. rewrite Hmode. simpl. split; [done |]. split.
    + by rewrite <- (families_for_Permutation (hour now)).
    + by rewrite <- (modes_for_Permutation family).
  - apply modes_for_Permutation.
  - reflexivity.
  - intros mode Hin. unfold TOPIC_MODES in Hin. simpl in Hin.
    repeat (apply elem_of_cons in Hin as [-> | Hin]).
    + by exists (draws_second 1), morning_of_june.
    + by exists (draws_second 2), morning_of_june.
    + by exists (draws_second 3), morning_of_june.
    + by exists (draws_second 0), morning_of_june.
    + by apply elem_of_nil in Hin.
Qed.

(** ** The greeting rules *)

Ltac split_comparisons :=
  repeat (match goal with
          | |- context [(?a =? ?b)] => destruct (Z.eqb_spec a b)
          | |- context [(?a <=? ?b)] => destruct (Z.leb_spec a b)
          | |- context [(?a <? ?b)] => destruct (Z.ltb_spec a b)
          end; try lia; cbn [andb orb negb List.find]).

(** The rules of the backend prompt are the decision table of the
    specification: a holiday date decides whatever the hour, else the
    hour band does. *)
Lemma backend_rules_are_the_table (now : datetime) :
  resolve_greeting BACKEND_DATE_RULES BACKEND_HOUR_RULES now
  = Some (backend_text (spec_greeting now)).
Proof.
  destruct now as [y m d h].
  unfold resolve_greeting, spec_greeting, BACKEND_DATE_RULES, BACKEND_HOUR_RULES.
  cbn [List.find]. unfold date_matches, hour_matches, md_leb.
  cbn [from_md to_md from_h to_h fst snd month day hour].
  split_comparisons; reflexivity.
Qed.

(** C8. The rules that [build_question] sends with the question are not
    the decision table: at 16:00 on June 10 they say "evening" where the
    table, and the backend prompt, say afternoon; on the morning of
    December 25 they say "morning", with no Christmas greeting. *)
Theorem question_rules_diverge :
  resolve_greeting QUESTION_DATE_RULES QUESTION_HOUR_RULES late_afternoon
  = Some (str "evening")
  /\ spec_greeting late_afternoon = Afternoon
  /\ resolve_greeting BACKEND_DATE_RULES BACKEND_HOUR_RULES late_afternoon
     = Some (str "Good afternoon")
  /\ resolve_greeting QUESTION_DATE_RULES QUESTION_HOUR_RULES christmas_morning
     = Some (str "morning")
  /\ spec_greeting christmas_morning = Christmas
  /\ resolve_greeting BACKEND_DATE_RULES BACKEND_HOUR_RULES christmas_morning
     = Some (str "Merry Christmas").
Proof. repeat split. Qed.

(** * Further properties of the code *)

(** ** The diversifier beyond [want >= 1] *)

Lemma diversify_loop_full top_k seen acc cs :
  top_k <= len acc + 1 ->
  diversify_loop top_k seen acc cs = acc ++ take 1 (first_of_each seen cs).
Proof.
  intros Hk. revert seen. induction cs as [|c cs IH]; intros seen; simpl.
  - by rewrite app_nil_r.
  - case_bool_decide; [apply IH |].
    assert (Hsnoc : len (acc ++ [c]) = len acc + 1) by apply len_app.
    rewrite Hsnoc. by destruct (Z.leb_spec top_k (len acc + 1)); [| lia].
Qed.

(** Whatever [top_k] is, the loop collects the first [max(1, top_k)]
    chunks that open a new key. *)
Lemma diversify_loop_any top_k cs :
  diversify_loop top_k ∅ [] cs
  = take (Z.to_nat (Z.max 1 top_k)) (first_of_each ∅ cs).
Proof.
  destruct (Z.le_gt_cases top_k 1) as [Hle | Hgt].
  - rewrite diversify_loop_full by (unfold len; simpl; lia).
    by replace (Z.to_nat (Z.max 1 top_k)) with 1%nat by lia.
  - rewrite diversify_loop_take by (unfold len; simpl; lia).
    simpl. f_equal. unfold len. simpl. lia.
Qed.

Lemma first_of_each_nil_inv cs : first_of_each ∅ cs = [] -> cs = [].
Proof.
  destruct cs as [|c cs]; [done |]. simpl.
  by rewrite bool_decide_eq_false_2 by set_solver.
Qed.

Lemma sort_by_nil_inv {A} (le : A -> A -> bool) (l : list A) :
  sort_by le l = [] -> l = [].
Proof.
  intros H. pose proof (sort_by_Permutation le l) as Hp. rewrite H in Hp.
  by apply Permutation_nil_l in Hp.
Qed.

Lemma diversify_loop_nil_inv (chunks : list RAGChunk) (top_k : Z) :
  diversify_loop top_k ∅ [] (sort_by by_distance chunks) = [] -> chunks = [].
Proof.
  rewrite diversify_loop_any. intros H.
  apply (sort_by_nil_inv by_distance), first_of_each_nil_inv.
  destruct (first_of_each ∅ (sort_by by_distance chunks)); [done |].
  destruct (Z.to_nat (Z.max 1 top_k)) eqn:Hn; [lia | done].
Qed.

Lemma diversify_is_loop (chunks : list RAGChunk) (top_k : Z) :
  diversify chunks top_k = diversify_loop top_k ∅ [] (sort_by by_distance chunks).
Proof.
  unfold diversify.
  destruct (diversify_loop top_k ∅ [] (sort_by by_distance chunks)) eqn:Hd;
    [| done].
  rewrite (diversify_loop_nil_inv chunks top_k Hd).
  unfold slice_to. destruct (0 <=? top_k); apply take_nil.
Qed.

(** X1. The fallback of rag.py 392 ([diversified or chunks[:top_k]]) never
    contributes: for every candidate list and every [top_k] the result is
    what the loop collected, and it is empty only when there is no
    candidate at all. *)
Theorem diversify_fallback_unused (chunks : list RAGChunk) (top_k : Z) :
  diversify chunks top_k
  = diversify_loop top_k ∅ [] (sort_by by_distance chunks)
  /\ (diversify chunks top_k = [] <-> chunks = []).
Proof.
  split; [apply diversify_is_loop |]. split.
  - rewrite diversify_is_loop. apply diversify_loop_nil_inv.
  - intros ->. rewrite diversify_is_loop. reflexivity.
Qed.

(** X2. A [top_k] of zero or less does not give an empty result: the loop
    appends before it compares, so the result is the nearest chunk
    alone. *)
Theorem diversify_nonpositive_want (chunks : list RAGChunk) (top_k : Z) :
  top_k <= 0 ->
  diversify chunks top_k = take 1 (sort_by by_distance chunks).
Proof.
  intros Hk. rewrite diversify_is_loop.
  rewrite diversify_loop_any.
  replace (Z.to_nat (Z.max 1 top_k)) with 1%nat by lia.
  destruct (sort_by by_distance chunks) as [|c cs]; [done |]. simpl.
  by rewrite bool_decide_eq_false_2 by set_solver.
Qed.

Lemma diversify_nonpositive_want_witness :
  diversify chunks_empty_file 0 = [chunk_empty_file "a" (1 # 10)].
Proof.
  rewrite (diversify_nonpositive_want chunks_empty_file 0); [| lia].
  vm_compute. reflexivity.
Defined.

Lemma first_of_each_split seen cs c :
  c ∈ first_of_each seen cs ->
  exists l1 l2, cs = l1 ++ c :: l2
    /\ forall c', c' ∈ l1 -> py_norm (dedup_key c') <> py_norm (dedup_key c).
Proof.
  revert seen. induction cs as [|x cs IH]; intros seen; simpl.
  - by intros ?%elem_of_nil.
  - assert (Hnew : forall seen', py_norm (dedup_key x) ∈ seen' ->
              c ∈ first_of_each seen' cs ->
              py_norm (dedup_key x) <> py_norm (dedup_key c)).
    { intros seen' Hin Hc Heq. rewrite Heq in Hin.
      apply (proj2 (first_of_each_keys seen' cs) (py_norm (dedup_key c)));
        [| done].
      apply list_elem_of_fmap. by exists c. }
    assert (Hstep : forall seen', py_norm (dedup_key x) ∈ seen' ->
              c ∈ first_of_each seen' cs ->
              exists l1 l2, x :: cs = l1 ++ c :: l2
                /\ forall c', c' ∈ l1 ->
                     py_norm (dedup_key c') <> py_norm (dedup_key c)).
    { intros seen' Hin Hc. destruct (IH _ Hc) as (l1 & l2 & Hcs & Hl1).
      exists (x :: l1), l2. split; [by rewrite Hcs |].
      intros c' Hc'. apply elem_of_cons in Hc' as [Hx | Hc']; [| by apply Hl1].
      subst c'. by apply (Hnew seen'). }
    case_bool_decide as Hin.
    + by apply Hstep.
    + intros Hc. apply elem_of_cons in Hc as [Hx | Hc].
      * subst x. exists [], cs. split; [done |]. by intros c' ?%elem_of_nil.
      * apply (Hstep ({[py_norm (dedup_key x)]} ∪ seen)); [set_solver | done].
Qed.

Lemma diversify_sublist chunks top_k :
  diversify chunks top_k `sublist_of` first_of_each ∅ (sort_by by_distance chunks).
Proof.
  rewrite diversify_is_loop.
  rewrite diversify_loop_any. apply sublist_take.
Qed.

Lemma sort_by_distance_sorted chunks :
  StronglySorted (fun a b => (distance a <= distance b)%Q)
    (sort_by by_distance chunks).
Proof.
  eapply StronglySorted_impl;
    [| apply (sort_by_StronglySorted by_distance by_distance_total by_distance_trans)].
  intros x y. unfold by_distance. apply Qle_bool_iff.
Qed.

(** X3. Every chunk that is kept is a nearest one of its key: no candidate
    with the same dedup key is closer.  This holds for every [top_k]. *)
Theorem diversify_keeps_nearest_of_key (chunks : list RAGChunk) (top_k : Z)
    (c c' : RAGChunk) :
  c ∈ diversify chunks top_k -> c' ∈ chunks ->
  py_norm (dedup_key c') = py_norm (dedup_key c) ->
  (distance c <= distance c')%Q.
Proof.
  intros Hc Hc' Hkey.
  eapply elem_of_sublist in Hc; [| apply diversify_sublist].
  apply first_of_each_split in Hc as (l1 & l2 & Hsplit & Hl1).
  pose proof (sort_by_distance_sorted chunks) as Hs. rewrite Hsplit in Hs.
  rewrite <- (sort_by_Permutation by_distance chunks), Hsplit in Hc'.
  apply elem_of_app in Hc' as [Hc' | Hc']; [by apply Hl1 in Hc' |].
  apply elem_of_cons in Hc' as [-> | Hc']; [apply Qle_refl |].
  apply StronglySorted_app_1_r in Hs.
  apply StronglySorted_inv in Hs as [_ Hall].
  rewrite Forall_forall in Hall. by apply Hall.
Qed.

Lemma diversify_keeps_nearest_of_key_witness :
  chunk_of_file "a.json" "near" (1 # 10) ∈ diversify chunks_one_file 2
  /\ chunk_of_file "a.json" "far" (1 # 2) ∈ chunks_one_file
  /\ (distance (chunk_of_file "a.json" "near" (1 # 10))
      <= distance (chunk_of_file "a.json" "far" (1 # 2)))%Q.
Proof.
  assert (Hkept : chunk_of_file "a.json" "near" (1 # 10) ∈ diversify chunks_one_file 2)
    by (vm_compute; left).
  assert (Hin : chunk_of_file "a.json" "far" (1 # 2) ∈ chunks_one_file)
    by (unfold chunks_one_file; left).
  split; [exact Hkept |]. split; [exact Hin |].
  exact (diversify_keeps_nearest_of_key chunks_one_file 2 _ _ Hkept Hin eq_refl).
Defined.

(** X4. Unless there is no candidate, the first chunk of the result is a
    nearest candidate overall, for every [top_k]. *)
Theorem diversify_first_is_nearest (chunks : list RAGChunk) (top_k : Z) :
  chunks <> [] ->
  exists c, diversify chunks top_k !! 0%nat = Some c
    /\ forall c', c' ∈ chunks -> (distance c <= distance c')%Q.
Proof.
  intros Hne. rewrite diversify_is_loop.
  rewrite diversify_loop_any.
  pose proof (sort_by_distance_sorted chunks) as Hs.
  pose proof (sort_by_Permutation by_distance chunks) as Hp.
  destruct (sort_by by_distance chunks) as [|c cs] eqn:Hsort.
  { by apply Permutation_nil_l in Hp. }
  exists c. split.
  - simpl. rewrite bool_decide_eq_false_2 by set_solver.
    by destruct (Z.to_nat (Z.max 1 top_k)) eqn:Hn; [lia |].
  - intros c' Hc'. rewrite <- Hp in Hc'.
    apply elem_of_cons in Hc' as [-> | Hc']; [apply Qle_refl |].
    apply StronglySorted_inv in Hs as [_ Hall].
    rewrite Forall_forall in Hall. by apply Hall.
Qed.

Lemma diversify_first_is_nearest_witness :
  exists c, diversify chunks_empty_file 2 !! 0%nat = Some c
    /\ forall c', c' ∈ chunks_empty_file -> (distance c <= distance c')%Q.
Proof. apply diversify_first_is_nearest. discriminate. Defined.

(** ** The length cap: what is kept *)

Lemma rstrip_prefix s : rstrip s `prefix_of` s.
Proof.
  induction s as [|x s IH]; simpl; [done |].
  destruct (rstrip s) as [|y r] eqn:Hr.
  - destruct (is_space x); [apply prefix_nil | apply prefix_cons, prefix_nil].
  - by apply prefix_cons.
Qed.

Lemma rstrip_idempotent s : rstrip (rstrip s) = rstrip s.
Proof.
  induction s as [|x s IH]; simpl; [done |].
  destruct (rstrip s) as [|y r] eqn:Hr.
  - destruct (is_space x) eqn:Hx; [done |]. simpl. by rewrite Hx.
  - change (rstrip (x :: y :: r)) with
      (match rstrip (y :: r) with
       | [] => if is_space x then [] else [x]
       | r' => x :: r'
       end).
    by rewrite IH.
Qed.

Lemma rsplit1_head_prefix c s : rsplit1_head c s `prefix_of` s.
Proof.
  unfold rsplit1_head. destruct (before_last c s) as [p |] eqn:Hbl; simpl; [| done].
  apply before_last_Some in Hbl as (q & -> & _). by apply prefix_app_r.
Qed.

(** X5. A capped text is a prefix of the text followed by one ellipsis,
    and that prefix does not end in whitespace: the cap only removes a
    tail, it never alters or reorders what it keeps. *)
Theorem enforce_max_chars_keeps_prefix (text : pystr) (max_chars : Z) :
  0 < max_chars -> max_chars < len text ->
  exists body,
    _enforce_max_chars text max_chars = body ++ [ELLIPSIS]
    /\ body `prefix_of` text
    /\ rstrip body = body.
Proof.
  intros Hm Hlen. unfold _enforce_max_chars.
  destruct (Z.leb_spec max_chars 0); [lia |].
  destruct (Z.leb_spec (len text) max_chars); [lia |].
  simpl. eexists. split; [reflexivity |]. split; [| apply rstrip_idempotent].
  etrans; [apply rstrip_prefix |].
  assert (Hcut : slice_to (max_chars - 1) text `prefix_of` text).
  { rewrite slice_to_nonneg by lia. apply prefix_take. }
  destruct (contains SPACE _); [| done].
  etrans; [apply rsplit1_head_prefix | done].
Qed.

Lemma enforce_max_chars_keeps_prefix_witness :
  exists body,
    _enforce_max_chars (str "The quick brown fox jumps") 10 = body ++ [ELLIPSIS]
    /\ body `prefix_of` str "The quick brown fox jumps"
    /\ rstrip body = body.
Proof.
  apply enforce_max_chars_keeps_prefix; [lia | vm_compute; reflexivity].
Defined.

(** ** The retrying client at the edge of its configuration *)

(** X6. With a negative number of retries the loop body never runs: no
    request is sent and the fallback after the loop raises, without a
    cause. *)
Theorem http_json_negative_retries (platform_sleep : float -> result ())
    (method url : pystr) (cfg : HttpCfg) (transport : Z -> response) :
  retries cfg < 0 ->
  http_json platform_sleep method url cfg transport
  = (raise (RuntimeError (RequestFailed method url None) None), []).
Proof.
  intros Hr. unfold http_json, range.
  replace (seqZ 0 (retries cfg + 1)) with (@nil Z); [done |].
  symmetry. apply length_zero_iff_nil. rewrite length_seqZ. lia.
Qed.

Lemma http_json_negative_retries_witness :
  http_json sleeps_any (str "GET") (str "http://localhost:8000/rag/status")
    cfg_negative_retries third_time_lucky
  = (raise (RuntimeError (RequestFailed (str "GET")
              (str "http://localhost:8000/rag/status") None) None), []).
Proof. apply http_json_negative_retries. simpl. lia. Defined.

(** Whatever the platform, [time.sleep] refuses a length of -1 second
    and a NaN with [ValueError], and a length of 1e19 seconds, in either
    direction, with [OverflowError]. *)
Lemma sleep_refuses (platform_sleep : float -> result ()) :
  sleep platform_sleep (-1)%float = raise ValueError
  /\ sleep platform_sleep nan = raise ValueError
  /\ sleep platform_sleep 1e19%float = raise OverflowError
  /\ sleep platform_sleep (-1e19)%float = raise OverflowError.
Proof. repeat split; reflexivity. Qed.

(** X7. With at least one retry configured and a delay that
    [time.sleep] refuses, a failed first request is not retried: the
    exception of [time.sleep] is raised outside the [try] block, where
    no handler of the loop catches it, after exactly one request.  For
    a delay of -1 second that is a [ValueError], for one of 1e19 seconds
    an [OverflowError], as [sleep_refuses] shows for every platform. *)
Theorem http_json_refused_sleep (platform_sleep : float -> result ())
    (method url : pystr) (cfg : HttpCfg) (transport : Z -> response) (e e' : exn) :
  0 < retries cfg -> sleep platform_sleep (retry_sleep_s cfg) = raise e' ->
  try_request url (transport 0) = inl e ->
  http_json platform_sleep method url cfg transport = (raise e', [Request 0]).
Proof.
  intros Hr Hd He. unfold http_json, range.
  rewrite seqZ_cons by lia. cbn [http_loop]. rewrite He.
  destruct (Z.leb_spec (retries cfg) 0); [lia |]. by rewrite Hd.
Qed.

Lemma http_json_refused_sleep_witness :
  http_json sleeps_any (str "GET") (str "http://localhost:8000/rag/status")
    cfg_negative_sleep always_down
  = (raise ValueError, [Request 0])
  /\ http_json sleeps_any (str "GET") (str "http://localhost:8000/rag/status")
       cfg_huge_sleep always_down
     = (raise OverflowError, [Request 0]).
Proof.
  split.
  - refine (http_json_refused_sleep sleeps_any _ _ cfg_negative_sleep always_down
              (OtherError (str "connection refused")) ValueError _ _ _).
    + simpl. lia.
    + reflexivity.
    + reflexivity.
  - refine (http_json_refused_sleep sleeps_any _ _ cfg_huge_sleep always_down
              (OtherError (str "connection refused")) OverflowError _ _ _).
    + simpl. lia.
    + reflexivity.
    + reflexivity.
Defined.

(** ** The rolling feed: what an upsert keeps *)

Lemma pystr_leb_antisym a b :
  pystr_leb a b = true -> pystr_leb b a = true -> a = b.
Proof.
  revert b. induction a as [|x a IH]; intros [|y b]; simpl; try done.
  destruct (N.ltb_spec x y), (N.ltb_spec y x), (N.eqb_spec x y), (N.eqb_spec y x);
    simpl; try done; try lia.
  intros Hab Hba. subst y. f_equal. by apply IH.
Qed.

Lemma insert_by_below_head {A} (le : A -> A -> bool) (x e : A) (l : list A) :
  le x e = false -> insert_by le x (e :: l) = e :: insert_by le x l.
Proof. intros H. simpl. by rewrite H. Qed.

Lemma sort_by_snoc_greatest {A} (le : A -> A -> bool) (e : A) (l : list A) :
  (forall x, x ∈ l -> le x e = false) ->
  sort_by le (l ++ [e]) = e :: sort_by le l.
Proof.
  induction l as [|x l IH]; intros Hl; simpl; [done |].
  fold (sort_by le (l ++ [e])). fold (sort_by le l).
  rewrite IH by set_solver. apply insert_by_below_head. apply Hl. set_solver.
Qed.

Lemma insert_by_before_last {A} (le : A -> A -> bool) (x e : A) (l : list A) :
  le x e = true -> insert_by le x (l ++ [e]) = insert_by le x l ++ [e].
Proof.
  intros H. induction l as [|y l IH]; simpl; [by rewrite H |].
  destruct (le x y); [done |]. by rewrite IH.
Qed.

Lemma sort_by_snoc_least {A} (le : A -> A -> bool) (e : A) (l : list A) :
  (forall x, x ∈ l -> le x e = true) ->
  sort_by le (l ++ [e]) = sort_by le l ++ [e].
Proof.
  induction l as [|x l IH]; intros Hl; simpl; [done |].
  fold (sort_by le (l ++ [e])). fold (sort_by le l).
  rewrite IH by set_solver. apply insert_by_before_last. apply Hl. set_solver.
Qed.

Lemma length_sort_by {A} (le : A -> A -> bool) (l : list A) :
  length (sort_by le l) = length l.
Proof. by rewrite (sort_by_Permutation le l). Qed.

Lemma filter_all {A} (P : A -> Prop) `{forall x, Decision (P x)} (l : list A) :
  (forall x, x ∈ l -> P x) -> filter P l = l.
Proof.
  induction l as [|x l IH]; intros Hl; [done |].
  rewrite filter_cons. destruct (decide (P x)) as [_ | Hn].
  - f_equal. apply IH. intros y Hy. apply Hl. set_solver.
  - exfalso. apply Hn, Hl. set_solver.
Qed.

Section rolling_feed_more.

Variable py_repr : json -> pystr.

Local Abbreviation date_of := (date_of py_repr).
Local Abbreviation spec_upsert := (spec_upsert py_repr).
Local Abbreviation update_feed := (update_feed py_repr).

(** X8. An entry dated no earlier than every item of the feed is stored,
    and stored first, for every limit (also a limit of zero or less, which
    keeps one item). *)
Theorem upsert_newest_first m xs args now :
  items_read m = JArr (JObj <$> xs) ->
  (forall x, x ∈ xs -> pystr_leb (date_of x) (arg_date args) = true) ->
  exists m' rest,
    update_feed (JObj m) args now = inr (JObj m', JObj (make_entry args))
    /\ m' !! str "items" = Some (JArr (JObj (make_entry args) :: rest)).
Proof.
  intros Hitems Hold.
  destruct (update_feed_refines py_repr m xs args now Hitems) as (m' & Hup & Hm' & _).
  exists m'. eexists. split; [exact Hup |]. rewrite Hm'. do 2 f_equal.
  unfold spec_upsert.
  rewrite sort_by_snoc_greatest.
  - replace (Z.to_nat (Z.max 1 (arg_limit args)))
      with (S (Z.to_nat (Z.max 1 (arg_limit args) - 1))) by lia.
    rewrite fmap_take. simpl. reflexivity.
  - intros x [Hne Hx]%list_elem_of_filter.
    rewrite date_of_make_entry.
    destruct (pystr_leb (arg_date args) (date_of x)) eqn:Hle; [| done].
    exfalso. apply Hne. apply pystr_leb_antisym; [by apply Hold | done].
Qed.

(** X9. An entry dated before every item of a feed that is already full
    is not stored at all: the items that are written are the old ones, in
    descending order of date (while the latest pointer is still given the
    entry). *)
Theorem upsert_oldest_dropped m xs args now :
  items_read m = JArr (JObj <$> xs) ->
  (forall x, x ∈ xs -> pystr_leb (date_of x) (arg_date args) = false) ->
  Z.max 1 (arg_limit args) <= len xs ->
  exists m',
    update_feed (JObj m) args now = inr (JObj m', JObj (make_entry args))
    /\ m' !! str "items"
       = Some (JArr (JObj <$> take (Z.to_nat (Z.max 1 (arg_limit args)))
                       (sort_by (fun a b => pystr_leb (date_of b) (date_of a)) xs))).
Proof.
  intros Hitems Hnew Hfull.
  destruct (update_feed_refines py_repr m xs args now Hitems) as (m' & Hup & Hm' & _).
  exists m'. split; [exact Hup |]. rewrite Hm'. do 3 f_equal.
  unfold spec_upsert.
  assert (Hkept : filter (fun x => date_of x <> arg_date args) xs = xs).
  { apply filter_all. intros x Hx Heq. specialize (Hnew x Hx). rewrite Heq in Hnew.
    destruct (pystr_leb (arg_date args) (arg_date args)) eqn:H; [done |].
    apply pystr_leb_total in H as H'. congruence. }
  rewrite Hkept, sort_by_snoc_least.
  - rewrite take_app_le; [done |]. rewrite length_sort_by. unfold len in Hfull. lia.
  - intros x Hx. rewrite date_of_make_entry. apply pystr_leb_total. by apply Hnew.
Qed.

(** X10. An upsert touches three fields of the feed dict and no other:
    [items], [updated_at], and [place] when a place is given; every other
    field that was read is written back as it was. *)
Theorem update_feed_keeps_other_fields m args now feed' entry :
  update_feed (JObj m) args now = inr (feed', entry) ->
  exists m', feed' = JObj m'
    /\ m' !! str "updated_at" = Some (JStr now)
    /\ (arg_place args = [] -> m' !! str "place" = m !! str "place")
    /\ (arg_place args <> [] -> m' !! str "place" = Some (JStr (arg_place args)))
    /\ forall k, k <> str "items" -> k <> str "updated_at" -> k <> str "place" ->
                 m' !! k = m !! k.
Proof.
  unfold update_feed.
  change (dict_get (JObj m) (str "items") JNone)
    with (inr (B := json) (A := exn) (default JNone (m !! str "items"))).
  cbn [mbind result_bind].
  destruct (py_list _) as [e | items]; [done |]. cbn [mbind result_bind].
  destruct (for_each _ items) as [e | dated]; [done |]. cbn [mbind result_bind].
  destruct (sort_by_date_desc _ _) as [e | sorted]; [done |].
  cbn [mbind result_bind mret result_ret]. intros [= <- <-].
  eexists. split; [reflexivity |].
  destruct (arg_place args) as [|ch place] eqn:Hplace; cbn [len length negb Z.eqb Z.of_nat].
  - simpl. split; [by rewrite lookup_insert_eq |]. split.
    + intros _. by rewrite !lookup_insert_ne by done.
    + split; [done |]. intros k Hk1 Hk2 _. by rewrite !lookup_insert_ne by done.
  - simpl. split.
    + rewrite lookup_insert_ne by done. by rewrite lookup_insert_eq.
    + split; [done |]. split; [intros _; by rewrite lookup_insert_eq |].
      intros k Hk1 Hk2 Hk3. by rewrite !lookup_insert_ne by done.
Qed.

End rolling_feed_more.

Lemma upsert_newest_first_witness :
  exists m' rest,
    update_feed (fun _ => []) (JObj {[ str "items" := JArr [JObj june_item] ]})
      newer_args (str "now")
    = inr (JObj m', JObj (make_entry newer_args))
    /\ m' !! str "items" = Some (JArr (JObj (make_entry newer_args) :: rest)).
Proof.
  apply (upsert_newest_first (fun _ => []) _ [june_item]).
  - reflexivity.
  - intros x Hx. apply list_elem_of_singleton in Hx. subst x. vm_compute. reflexivity.
Defined.

Lemma upsert_oldest_dropped_witness :
  exists m',
    update_feed (fun _ => []) (JObj {[ str "items" := JArr [JObj june_item] ]})
      backfill_args (str "now")
    = inr (JObj m', JObj (make_entry backfill_args))
    /\ m' !! str "items" = Some (JArr [JObj june_item]).
Proof.
  destruct (upsert_oldest_dropped (fun _ => [])
              {[ str "items" := JArr [JObj june_item] ]} [june_item]
              backfill_args (str "now")) as (m' & Hup & Hitems).
  - reflexivity.
  - intros x Hx. apply list_elem_of_singleton in Hx. subst x. vm_compute. reflexivity.
  - vm_compute. discriminate.
  - exists m'. split; [exact Hup | exact Hitems].
Defined.

Lemma update_feed_keeps_other_fields_witness :
  exists m' entry,
    update_feed (fun _ => []) (JObj feed_with_source) first_run_args (str "now")
    = inr (JObj m', entry)
    /\ m' !! str "source" = Some (JStr (str "jma"))
    /\ m' !! str "updated_at" = Some (JStr (str "now")).
Proof.
  destruct (update_feed (fun _ => []) (JObj feed_with_source) first_run_args (str "now"))
    as [e | [feed' entry]] eqn:Hup.
  - vm_compute in Hup. discriminate.
  - destruct (update_feed_keeps_other_fields _ _ _ _ _ _ Hup)
      as (m' & -> & Hnow & _ & _ & Hk).
    exists m', entry. split; [reflexivity |]. split; [| exact Hnow].
    rewrite Hk by done. reflexivity.
Defined.

(** ** update_weather_feed.py: the files after a run *)

Section files_after_a_run.

Variable py_repr : json -> pystr.
Variable dumps : json -> pystr.
Variable loads : pystr -> option json.
Variable file_of : pystr -> pystr.

Local Abbreviation text_of := (fun obj => dumps obj ++ NEWLINE).
Local Abbreviation main := (main py_repr dumps loads file_of).
Local Abbreviation paths_apart := (paths_apart file_of).

(** One [_atomic_write], seen from any file but its temporary file. *)
Lemma atomic_write_elsewhere files path obj f rename_fails k :
  (forall tmp, tmp_of path = inr tmp -> file_of tmp <> k) ->
  let out := _atomic_write dumps file_of files path obj f rename_fails in
  match snd out with
  | inl _ => fst out !! k = files !! k
  | inr _ => fst out !! k = if decide (k = file_of path) then Some (text_of obj)
                            else files !! k
  end.
Proof.
  intros Hk. unfold _atomic_write, write_text, replace_file.
  destruct (tmp_of path) as [e | tmp]; [done |]. specialize (Hk tmp eq_refl).
  destruct f as [| |n]; simpl; [| done | by rewrite lookup_insert_ne].
  destruct rename_fails; simpl; [by rewrite lookup_insert_ne |].
  rewrite lookup_insert_eq. simpl.
  destruct (decide (k = file_of path)) as [-> | Hne].
  - by rewrite lookup_insert_eq.
  - rewrite lookup_insert_ne by done. rewrite lookup_delete_ne by done.
    by rewrite lookup_insert_ne.
Qed.

(** The loop over the feed paths, seen from a file that is no temporary
    file of the loop. *)
Lemma write_feeds_elsewhere feed ps : forall files faults k,
  (forall p tmp, p ∈ ps -> tmp_of p = inr tmp -> file_of tmp <> k) ->
  let out := write_feeds dumps file_of files ps feed faults in
  (fst out !! k = files !! k
   \/ (k ∈ file_of <$> ps /\ fst out !! k = Some (text_of feed)))
  /\ (snd out = inr () -> k ∈ file_of <$> ps -> fst out !! k = Some (text_of feed)).
Proof.
  induction ps as [|p ps IH]; intros files faults k Hk; cbv zeta;
    cbn [write_feeds].
  - split; [by left | by intros _ ?%elem_of_nil].
  - pose proof (atomic_write_elsewhere files p feed (hd (NoFault, false) faults).1
                  (hd (NoFault, false) faults).2 k) as Hone.
    specialize (Hone ltac:(intros tmp Ht; apply (Hk p tmp); [set_solver | done])).
    cbv zeta in Hone.
    destruct (_atomic_write dumps file_of files p feed _ _) as [files1 [e | []]] eqn:Hw;
      cbn [fst snd] in *.
    + split; [by left | done].
    + destruct (IH files1 (tl faults) k
                  ltac:(intros p' tmp Hp'; apply Hk; set_solver))
        as [Hsafe Hdone].
      rewrite fmap_cons. split.
      * destruct Hsafe as [Hsame | [Hin Hnew]].
        -- rewrite Hsame, Hone. destruct (decide (k = file_of p)) as [-> | _]; [| by left].
           right. split; [set_solver | done].
        -- right. split; [set_solver | done].
      * intros Hok Hin. apply elem_of_cons in Hin as [-> | Hin]; [| by apply Hdone].
        destruct Hsafe as [Hsame | [_ Hnew]]; [| done].
        rewrite Hsame, Hone. by rewrite decide_True.
Qed.

(** X11. Whatever fails while the files are written, a run of [main]
    whose paths keep apart leaves in the file of each feed path the text
    that was there or the whole new feed, and in the file of the latest
    pointer the text that was there or the whole new entry: never a
    part of a text. *)
Theorem main_never_leaves_partial_file files cli_feeds env_feeds latest args now
    faults feed entry :
  let feed_paths := _resolve_feed_paths cli_feeds env_feeds in
  let latest_path := Path latest in
  paths_apart feed_paths latest_path ->
  update_feed py_repr (first_loaded (read_stored loads files ∘ file_of <$> feed_paths))
    args now
  = inr (feed, entry) ->
  let out := main files cli_feeds env_feeds latest args now faults in
  (forall p, p ∈ feed_paths ->
     fst out !! file_of p = files !! file_of p
     \/ fst out !! file_of p = Some (text_of feed))
  /\ (fst out !! file_of latest_path = files !! file_of latest_path
      \/ fst out !! file_of latest_path = Some (text_of entry)).
Proof.
  intros feed_paths latest_path [Htmp Hlatest] Hup. unfold main.
  fold feed_paths latest_path. cbv zeta. rewrite Hup.
  clearbody feed_paths latest_path.
  assert (Hfeeds : forall q, q ∈ latest_path :: feed_paths ->
            let out := write_feeds dumps file_of files feed_paths feed faults in
            (fst out !! file_of q = files !! file_of q
             \/ (file_of q ∈ file_of <$> feed_paths
                 /\ fst out !! file_of q = Some (text_of feed)))
            /\ (snd out = inr () -> file_of q ∈ file_of <$> feed_paths ->
                fst out !! file_of q = Some (text_of feed))).
  { intros q Hq. apply write_feeds_elsewhere.
    intros p tmp Hp Ht. apply (Htmp p tmp q); [set_solver | done | done]. }
  cbv zeta in Hfeeds.
  destruct (write_feeds dumps file_of files feed_paths feed faults)
    as [files1 [e | []]] eqn:Hw; cbn [fst snd] in *.
  - split.
    + intros p Hp. destruct (Hfeeds p) as [[? | [_ ?]] _]; [set_solver | eauto ..].
    + destruct (Hfeeds latest_path) as [[? | [? _]] _]; [set_solver | eauto ..]. done.
  - set (f := hd (NoFault, false) (drop (length feed_paths) faults)).
    pose proof (atomic_write_elsewhere files1 latest_path entry f.1 f.2) as Hone.
    pose proof (atomic_write_atomic dumps file_of files1 latest_path entry f.1 f.2)
      as Hat.
    cbv zeta in Hone, Hat.
    destruct (_atomic_write dumps file_of files1 latest_path entry f.1 f.2) as [files2 r] eqn:Hl.
    cbn [fst snd] in *.
    split.
    + intros p Hp.
      specialize (Hone (file_of p)
                    ltac:(intros tmp Ht; apply (Htmp latest_path tmp p); set_solver)).
      assert (Hsame : files2 !! file_of p = files1 !! file_of p).
      { destruct r; [done |]. rewrite Hone. rewrite decide_False; [done |].
        intros Heq. apply Hlatest. rewrite <- Heq. by apply list_elem_of_fmap_2. }
      rewrite Hsame. destruct (Hfeeds p) as [[? | [_ ?]] _]; [set_solver | eauto ..].
    + specialize (Hat ltac:(intros tmp Ht;
                            apply (Htmp latest_path tmp latest_path); set_solver)).
      assert (Hkeep : files1 !! file_of latest_path = files !! file_of latest_path).
      { destruct (Hfeeds latest_path) as [[? | [? _]] _]; [set_solver | eauto ..]. done. }
      destruct r; [left; congruence | by right].
Qed.

(** X12. When a run of [main] whose paths keep apart ends without an
    exception, the file of every feed path holds the same text, that of
    the new feed, and the file of the latest pointer holds the entry. *)
Theorem main_fans_out files cli_feeds env_feeds latest args now faults files' :
  let feed_paths := _resolve_feed_paths cli_feeds env_feeds in
  let latest_path := Path latest in
  paths_apart feed_paths latest_path ->
  main files cli_feeds env_feeds latest args now faults = (files', inr ()) ->
  exists feed entry,
    update_feed py_repr (first_loaded (read_stored loads files ∘ file_of <$> feed_paths))
      args now
    = inr (feed, entry)
    /\ (forall p, p ∈ feed_paths -> files' !! file_of p = Some (text_of feed))
    /\ files' !! file_of latest_path = Some (text_of entry).
Proof.
  intros feed_paths latest_path [Htmp Hlatest]. unfold main.
  fold feed_paths latest_path. cbv zeta. clearbody feed_paths latest_path.
  destruct (update_feed _ _ _ _) as [e | [feed entry]] eqn:Hup; [done |].
  assert (Hfeeds : forall q, q ∈ feed_paths ->
            let out := write_feeds dumps file_of files feed_paths feed faults in
            snd out = inr () -> fst out !! file_of q = Some (text_of feed)).
  { intros q Hq out Hok.
    destruct (write_feeds_elsewhere feed feed_paths files faults (file_of q))
      as [_ Hdone].
    - intros p tmp Hp Ht. apply (Htmp p tmp q); [set_solver | done | set_solver].
    - apply Hdone; [done |]. by apply list_elem_of_fmap_2. }
  cbv zeta in Hfeeds.
  destruct (write_feeds dumps file_of files feed_paths feed faults)
    as [files1 [e | []]] eqn:Hw; [done |]. cbn [fst snd] in Hfeeds.
  set (f := hd (NoFault, false) (drop (length feed_paths) faults)).
  pose proof (atomic_write_elsewhere files1 latest_path entry f.1 f.2) as Hone.
  pose proof (atomic_write_atomic dumps file_of files1 latest_path entry f.1 f.2) as Hat.
  cbv zeta in Hone, Hat.
  intros Hmain. rewrite Hmain in Hone, Hat. cbn [fst snd] in Hone, Hat.
  exists feed, entry. split; [done |]. split.
  - intros p Hp.
    rewrite (Hone (file_of p))
      by (intros tmp Ht; apply (Htmp latest_path tmp p); set_solver).
    rewrite decide_False.
    + by apply Hfeeds.
    + intros Heq. apply Hlatest. rewrite <- Heq. by apply list_elem_of_fmap_2.
  - apply Hat. intros tmp Ht. apply (Htmp latest_path tmp latest_path); set_solver.
Qed.

End files_after_a_run.

(** The default paths in a directory where every path is a file of its
    own. *)
Lemma default_paths_apart :
  paths_apart (fun p => p) (_resolve_feed_paths None []) (Path default_latest).
Proof.
  unfold paths_apart.
  let l := eval vm_compute in (_resolve_feed_paths None []) in
  change (_resolve_feed_paths None []) with l.
  let l := eval vm_compute in (Path default_latest) in
  change (Path default_latest) with l.
  split.
  - intros p tmp q Hp Ht Hq.
    repeat match goal with
      | H : _ ∈ _ :: _ |- _ => apply elem_of_cons in H as [H | H]
      | H : _ ∈ [] |- _ => by apply elem_of_nil in H
      end;
      subst; vm_compute in Ht; injection Ht as <-; discriminate.
  - rewrite list_fmap_id. intros H.
    repeat match goal with
      | H : _ ∈ _ :: _ |- _ => apply elem_of_cons in H as [H | H]
      | H : _ ∈ [] |- _ => by apply elem_of_nil in H
      end; discriminate.
Qed.

Lemma main_never_leaves_partial_file_witness :
  let out := main (fun _ => []) (fun _ => str "{}") (fun _ => None) (fun p => p) ∅
               None [] default_latest first_run_args (str "now")
               [(NoFault, false); (WriteFails 1, false)] in
  fst out !! str "public/weather_feed.json" = Some (str "{}" ++ NEWLINE)
  /\ fst out !! str "frontend/app/public/weather_feed.json" = None
  /\ (forall p, p ∈ _resolve_feed_paths None [] ->
        fst out !! p = (∅ : gmap pystr pystr) !! p
        \/ fst out !! p = Some (str "{}" ++ NEWLINE)).
Proof.
  intros out. split; [vm_compute; reflexivity |]. split; [vm_compute; reflexivity |].
  destruct (update_feed (fun _ => [])
              (first_loaded (read_stored (fun _ => None) ∅ ∘ (fun p => p)
                             <$> _resolve_feed_paths None []))
              first_run_args (str "now")) as [e | [feed entry]] eqn:Hup.
  - vm_compute in Hup. discriminate.
  - exact (proj1 (main_never_leaves_partial_file (fun _ => []) (fun _ => str "{}")
                    (fun _ => None) (fun p => p) ∅ None [] default_latest
                    first_run_args (str "now") [(NoFault, false); (WriteFails 1, false)]
                    feed entry default_paths_apart Hup)).
Defined.

Lemma main_fans_out_witness :
  exists files',
    main (fun _ => []) (fun _ => str "{}") (fun _ => None) (fun p => p) ∅
      None [] default_latest first_run_args (str "now") []
    = (files', inr ())
    /\ files' !! str "public/weather_feed.json"
       = files' !! str "frontend/app/public/weather_feed.json"
    /\ files' !! str "public/weather_feed.json" = Some (str "{}" ++ NEWLINE).
Proof.
  destruct (main (fun _ => []) (fun _ => str "{}") (fun _ => None) (fun p => p) ∅
              None [] default_latest first_run_args (str "now") [])
    as [files' r] eqn:Hmain.
  assert (Hr : r = inr ()).
  { apply (f_equal snd) in Hmain. vm_compute in Hmain. by subst r. }
  subst r. exists files'. split; [done |].
  destruct (main_fans_out (fun _ => []) (fun _ => str "{}") (fun _ => None)
              (fun p => p) ∅ None [] default_latest first_run_args (str "now") []
              files' default_paths_apart Hmain)
    as (feed & entry & _ & Hall & _).
  rewrite (Hall (str "public/weather_feed.json")) by (vm_compute; left).
  rewrite (Hall (str "frontend/app/public/weather_feed.json"))
    by (vm_compute; right; left).
  split; [reflexivity |]. done.
Defined.

(** ** Whitespace *)

Lemma lstrip_head_nonspace c s : is_space c = false -> lstrip (c :: s) = c :: s.
Proof. intros H. simpl. by rewrite H. Qed.

Lemma rstrip_app_nonempty a b : rstrip b <> [] -> rstrip (a ++ b) = a ++ rstrip b.
Proof.
  intros Hb. induction a as [|x a IH]; [done |].
  simpl. rewrite IH. destruct (a ++ rstrip b) eqn:Hab; [| done].
  apply app_nil in Hab as [_ ?]. done.
Qed.

Lemma rstrip_nonspace w : Forall (fun c => is_space c = false) w -> rstrip w = w.
Proof.
  induction 1 as [|c w Hc Hw IH]; [done |].
  simpl. rewrite IH. destruct w; [by rewrite Hc | done].
Qed.

Lemma rstrip_snoc_nonspace s c : is_space c = false -> rstrip (s ++ [c]) = s ++ [c].
Proof.
  intros Hc. rewrite rstrip_app_nonempty; simpl; by rewrite Hc.
Qed.

Lemma rstrip_head_kept c s : is_space c = false -> exists r, rstrip (c :: s) = c :: r.
Proof.
  intros Hc. simpl. destruct (rstrip s); [rewrite Hc |]; eauto.
Qed.

Lemma strip_idempotent s : strip (strip s) = strip s.
Proof.
  unfold strip.
  assert (Hl : lstrip (rstrip (lstrip s)) = rstrip (lstrip s)).
  { assert (Hhead : lstrip s = [] \/ exists c t, lstrip s = c :: t /\ is_space c = false).
    { induction s as [|c s IH]; [by left |]. simpl.
      destruct (is_space c) eqn:Hc; [done |]. right. eauto. }
    destruct Hhead as [-> | (c & t & -> & Hc)]; [done |].
    destruct (rstrip_head_kept c t Hc) as [r ->]. by apply lstrip_head_nonspace. }
  rewrite Hl. apply rstrip_idempotent.
Qed.

Lemma strip_framed c s d :
  is_space c = false -> is_space d = false -> strip (c :: s ++ [d]) = c :: s ++ [d].
Proof.
  intros Hc Hd. unfold strip. rewrite lstrip_head_nonspace by done.
  by apply (rstrip_snoc_nonspace (c :: s)).
Qed.

Lemma lstrip_suffix s : lstrip s `suffix_of` s.
Proof.
  induction s as [|c s IH]; simpl; [done |].
  destruct (is_space c); [by apply suffix_cons_r | done].
Qed.

Lemma strip_elem_of s c : c ∈ strip s -> c ∈ s.
Proof.
  unfold strip. intros Hc.
  destruct (rstrip_prefix (lstrip s)) as [k1 Hk1].
  destruct (lstrip_suffix s) as [k2 Hk2].
  rewrite Hk2, Hk1. set_solver.
Qed.

Lemma length_strip s : (length (strip s) <= length s)%nat.
Proof.
  unfold strip. etrans; [apply length_rstrip |].
  destruct (lstrip_suffix s) as [k Hk]. rewrite Hk at 2. rewrite length_app. lia.
Qed.

(** ** [_clean_single_line] *)

Lemma split_ws_words s : Forall word (split_ws s).
Proof.
  induction s as [|c s IH]; simpl; [constructor |].
  destruct (is_space c) eqn:Hc; [done |].
  destruct s as [|c' s]; [by repeat constructor |].
  destruct (is_space c') eqn:Hc'; [constructor; [by repeat constructor | done] |].
  destruct (split_ws (c' :: s)) as [|w ws]; [by repeat constructor |].
  apply Forall_cons in IH as [[_ Hw] Hws].
  constructor; [| done]. split; [done | by constructor].
Qed.

Lemma split_ws_fmap (f : N -> N) s :
  (forall c, is_space (f c) = is_space c) ->
  (forall c, is_space c = false -> f c = c) ->
  split_ws (f <$> s) = split_ws s.
Proof.
  intros Hsp Hid. induction s as [|c s IH]; [done |].
  rewrite fmap_cons. simpl. rewrite Hsp.
  destruct (is_space c) eqn:Hc; [done |]. rewrite (Hid c Hc).
  destruct s as [|c' s]; [done |].
  rewrite fmap_cons in *. rewrite Hsp.
  destruct (is_space c'); by rewrite IH.
Qed.

Lemma split_ws_replace1 a s :
  is_space a = true -> split_ws (replace1 a SPACE s) = split_ws s.
Proof.
  intros Ha. apply split_ws_fmap.
  - intros c. destruct (N.eqb_spec c a) as [-> | _]; [by rewrite Ha | done].
  - intros c Hc. destruct (N.eqb_spec c a) as [-> | _]; [congruence | done].
Qed.

Lemma split_ws_word_then_space w c rest :
  word w -> is_space c = true ->
  split_ws (w ++ c :: rest) = w :: split_ws (c :: rest).
Proof.
  intros [Hne Hw] Hc. induction Hw as [|x w Hx Hw IH]; [done |].
  destruct w as [|y w].
  - simpl. by rewrite Hx, Hc.
  - specialize (IH ltac:(done)).
    apply Forall_cons in Hw as [Hy _].
    change (split_ws ((x :: y :: w) ++ c :: rest)) with
      (if is_space x then split_ws ((y :: w) ++ c :: rest)
       else if is_space y then [x] :: split_ws ((y :: w) ++ c :: rest)
       else match split_ws ((y :: w) ++ c :: rest) with
            | w' :: ws => (x :: w') :: ws
            | [] => [[x]]
            end).
    by rewrite Hx, Hy, IH.
Qed.

Lemma split_ws_word w : word w -> split_ws w = [w].
Proof.
  intros [Hne Hw]. induction Hw as [|x w Hx Hw IH]; [done |].
  destruct w as [|y w]; [simpl; by rewrite Hx |].
  specialize (IH ltac:(done)). apply Forall_cons in Hw as [Hy _].
  change (split_ws (x :: y :: w)) with
    (if is_space x then split_ws (y :: w)
     else if is_space y then [x] :: split_ws (y :: w)
     else match split_ws (y :: w) with
          | w' :: ws => (x :: w') :: ws
          | [] => [[x]]
          end).
  by rewrite Hx, Hy, IH.
Qed.

Lemma split_ws_join ws : Forall word ws -> split_ws (join [SPACE] ws) = ws.
Proof.
  induction 1 as [|w ws Hw Hws IH]; [done |].
  destruct ws as [|w2 ws]; [by apply split_ws_word |].
  change (join [SPACE] (w :: w2 :: ws)) with (w ++ SPACE :: join [SPACE] (w2 :: ws)).
  rewrite split_ws_word_then_space by done.
  change (split_ws (SPACE :: ?s)) with (split_ws s). by rewrite IH.
Qed.

Lemma strip_join_words ws : Forall word ws -> strip (join [SPACE] ws) = join [SPACE] ws.
Proof.
  intros Hws. unfold strip.
  assert (Hl : lstrip (join [SPACE] ws) = join [SPACE] ws).
  { destruct Hws as [|w ws [Hne Hw] Hws]; [done |].
    destruct w as [|c w]; [done |]. apply Forall_cons in Hw as [Hc _].
    destruct ws; by apply lstrip_head_nonspace. }
  rewrite Hl. clear Hl.
  induction Hws as [|w ws [Hne Hw] Hws IH]; [done |].
  destruct ws as [|w2 ws]; [by apply rstrip_nonspace |].
  change (join [SPACE] (w :: w2 :: ws))
    with (w ++ [SPACE] ++ join [SPACE] (w2 :: ws)).
  rewrite app_assoc, rstrip_app_nonempty; rewrite IH; [done |].
  apply Forall_cons in Hws as [[Hne2 _] _].
  destruct w2; [done |]. by destruct ws.
Qed.

Lemma clean_single_line_join (text : pystr) :
  _clean_single_line text = join [SPACE] (split_ws text).
Proof.
  unfold _clean_single_line. rewrite !split_ws_replace1 by done.
  apply strip_join_words, split_ws_words.
Qed.

(** X13. [_clean_single_line] returns the words of the text, in order,
    with one space between each two: the three [replace] calls and the
    final [strip] change nothing that [split] and [join] do not do. *)
Theorem clean_single_line_words (text : pystr) :
  _clean_single_line text = join [SPACE] (split_ws text)
  /\ Forall (fun w => w <> [] /\ Forall (fun c => is_space c = false) w)
       (split_ws text).
Proof.
  split; [apply clean_single_line_join |].
  eapply Forall_impl; [apply split_ws_words |].
  intros w Hw. exact Hw.
Qed.

(** X14. Cleaning a cleaned text changes nothing. *)
Theorem clean_single_line_idempotent (text : pystr) :
  _clean_single_line (_clean_single_line text) = _clean_single_line text.
Proof.
  pose proof (clean_single_line_join text) as Hc.
  pose proof (split_ws_words text) as Hw.
  rewrite (clean_single_line_join (_clean_single_line text)).
  rewrite Hc at 1. by rewrite split_ws_join.
Qed.

(** ** [_strip_wrapping_quotes] *)

Lemma strip_pair_stripped s pair : strip s = s -> strip (strip_pair s pair) = strip_pair s pair.
Proof.
  intros Hs. unfold strip_pair. destruct (_ && _); [apply strip_idempotent | done].
Qed.

Lemma foldl_strip_pair_stripped pairs s :
  strip s = s -> strip (foldl strip_pair s pairs) = foldl strip_pair s pairs.
Proof.
  revert s. induction pairs as [|p pairs IH]; intros s Hs; [done |].
  simpl. by apply IH, strip_pair_stripped.
Qed.

Lemma length_slice_inner {A} (s : list A) : (length (slice_inner s) <= length s)%nat.
Proof. unfold slice_inner. rewrite length_drop, length_take. lia. Qed.

Lemma length_strip_pair s pair : (length (strip_pair s pair) <= length s)%nat.
Proof.
  unfold strip_pair. destruct (_ && _); [| done].
  etrans; [apply length_strip | apply length_slice_inner].
Qed.

(** X15. What [_strip_wrapping_quotes] returns has no whitespace at
    either end and is never longer than the text. *)
Theorem strip_wrapping_quotes_stripped (text : pystr) :
  strip (_strip_wrapping_quotes text) = _strip_wrapping_quotes text
  /\ (length (_strip_wrapping_quotes text) <= length text)%nat.
Proof.
  unfold _strip_wrapping_quotes. split.
  - apply foldl_strip_pair_stripped, strip_idempotent.
  - etrans; [| apply length_strip].
    generalize (strip text). generalize QUOTE_PAIRS.
    intros pairs. induction pairs as [|p pairs IH]; intros s; [done |].
    simpl. etrans; [apply IH | apply length_strip_pair].
Qed.

Lemma slice_inner_framed {A} (a b : A) (s : list A) :
  slice_inner (a :: s ++ [b]) = s.
Proof.
  unfold slice_inner.
  replace (length (a :: s ++ [b]) - 1)%nat with (length (a :: s)).
  - change (a :: s ++ [b]) with ((a :: s) ++ [b]). by rewrite take_app_length.
  - simpl. rewrite length_app. simpl. lia.
Qed.

Lemma endswith1_snoc s b c : endswith1 b (s ++ [c]) = (c =? b)%N.
Proof. unfold endswith1. by rewrite last_snoc. Qed.

Lemma endswith1_framed a s b c : endswith1 b (a :: s ++ [c]) = (c =? b)%N.
Proof. apply (endswith1_snoc (a :: s)). Qed.

Lemma len_framed_ge_2 {A} (a b : A) (s : list A) : (2 <=? len (a :: s ++ [b])) = true.
Proof.
  apply Z.leb_le. unfold len. simpl. rewrite length_app. simpl. lia.
Qed.

Lemma strip_pair_unwraps a b a' s b' :
  is_space a' = false -> is_space b' = false ->
  strip_pair (a :: (a' :: s ++ [b']) ++ [b]) (a, b) = a' :: s ++ [b'].
Proof.
  intros Ha' Hb'. unfold strip_pair.
  cbn [fst snd startswith1]. rewrite N.eqb_refl.
  rewrite endswith1_framed, N.eqb_refl, len_framed_ge_2. simpl andb. cbv iota.
  rewrite slice_inner_framed. by apply strip_framed.
Qed.

Lemma strip_pair_other_opening a b s :
  startswith1 a s = false -> strip_pair s (a, b) = s.
Proof. intros H. unfold strip_pair. simpl. by rewrite H. Qed.

Lemma strip_pair_last a b x :
  strip x = x ->
  strip_pair (a :: x ++ [b]) (a, b) = x.
Proof.
  intros Hx. unfold strip_pair. cbn [fst snd startswith1]. rewrite N.eqb_refl.
  rewrite endswith1_framed, N.eqb_refl, len_framed_ge_2. simpl andb. cbv iota.
  by rewrite slice_inner_framed.
Qed.

(** X16. The quotes are removed in one pass over the five kinds, in the
    order of the list.  Around a text [x] that is stripped and starts
    with no opening quote: double quotes around single quotes lose both
    layers, single quotes around double quotes lose the outer layer
    only. *)
Theorem strip_wrapping_quotes_order (x : pystr) :
  strip x = x -> unquoted x ->
  _strip_wrapping_quotes ([34; 39] ++ x ++ [39; 34])%N = x
  /\ _strip_wrapping_quotes ([39; 34] ++ x ++ [34; 39])%N = (34 :: x ++ [34])%N.
Proof.
  intros Hx Hq. unfold unquoted, QUOTE_PAIRS in Hq.
  repeat (apply Forall_cons in Hq as [? Hq]). cbn [fst] in *.
  unfold _strip_wrapping_quotes, QUOTE_PAIRS. split.
  - replace ([34; 39] ++ x ++ [39; 34])%N with (34 :: (39 :: x ++ [39]) ++ [34])%N
      by (simpl; by rewrite <- app_assoc).
    rewrite (strip_framed 34 (39 :: x ++ [39]) 34)%N by done.
    cbn [foldl]. rewrite (strip_pair_unwraps 34 34 39 x 39)%N by done.
    rewrite (strip_pair_last 39 39 x Hx)%N.
    rewrite (strip_pair_other_opening 8220 8221 x)%N by done.
    rewrite (strip_pair_other_opening 8216 8217 x)%N by done.
    by rewrite (strip_pair_other_opening 96 96 x)%N.
  - replace ([39; 34] ++ x ++ [34; 39])%N with (39 :: (34 :: x ++ [34]) ++ [39])%N
      by (simpl; by rewrite <- app_assoc).
    rewrite (strip_framed 39 (34 :: x ++ [34]) 39)%N by done.
    cbn [foldl]. rewrite (strip_pair_other_opening 34 34)%N by done.
    rewrite (strip_pair_unwraps 39 39 34 x 34)%N by done.
    rewrite (strip_pair_other_opening 8220 8221)%N by done.
    rewrite (strip_pair_other_opening 8216 8217)%N by done.
    by rewrite (strip_pair_other_opening 96 96)%N.
Qed.

Lemma strip_wrapping_quotes_order_witness :
  _strip_wrapping_quotes ([34; 39] ++ str "fine day" ++ [39; 34])%N = str "fine day".
Proof.
  assert (Hs : strip (str "fine day") = str "fine day") by (vm_compute; reflexivity).
  assert (Hq : unquoted (str "fine day")).
  { unfold unquoted, QUOTE_PAIRS. repeat constructor. }
  exact (proj1 (strip_wrapping_quotes_order (str "fine day") Hs Hq)).
Defined.

(** ** [extract_tweet] *)

Lemma nonblank_str_Some v t :
  nonblank_str v = Some t ->
  t <> [] /\ strip t = t /\ exists s, v = JStr s /\ t = strip s.
Proof.
  destruct v as [[| | |s]| |]; simpl; try done.
  destruct (Z.eqb_spec (len (strip s)) 0) as [_ | Hne]; [done |].
  intros [= <-]. split; [| split; [apply strip_idempotent | by exists s]].
  intros Hnil. rewrite Hnil in Hne. done.
Qed.

Lemma first_nonblank_Some resp_obj keys t :
  first_nonblank resp_obj keys = Some t ->
  exists k, k ∈ keys /\ nonblank_str (default JNone (resp_obj !! k)) = Some t.
Proof.
  induction keys as [|k keys IH]; simpl; [done |].
  destruct (nonblank_str _) as [t' |] eqn:Hk.
  - intros [= <-]. exists k. split; [set_solver | done].
  - intros H. destruct (IH H) as (k' & ? & ?). exists k'. split; [set_solver | done].
Qed.

(** X17. A tweet that [extract_tweet] returns is never empty, has no
    whitespace at either end, and is the stripped string of the field
    it was taken from: [answer], [text] or [output] of the response, or
    [answer] of its [result]. *)
Theorem extract_tweet_nonblank (resp_obj : gmap pystr json) (t : pystr) :
  extract_tweet resp_obj = Some t ->
  t <> [] /\ strip t = t
  /\ exists s, t = strip s
       /\ ((exists k, k ∈ [str "answer"; str "text"; str "output"]
                      /\ resp_obj !! k = Some (JStr s))
           \/ (exists result, resp_obj !! str "result" = Some (JObj result)
                              /\ result !! str "answer" = Some (JStr s))).
Proof.
  unfold extract_tweet.
  destruct (first_nonblank _ _) as [t' |] eqn:Hfirst.
  - intros [= <-]. apply first_nonblank_Some in Hfirst as (k & Hk & Hv).
    apply nonblank_str_Some in Hv as (Hne & Hs & s & Hget & ->).
    split; [done |]. split; [done |]. exists s. split; [done |]. left.
    exists k. split; [done |].
    destruct (resp_obj !! k) as [v |]; simpl in Hget; [by subst v | done].
  - destruct (resp_obj !! str "result") as [[a|l|result] |] eqn:Hres; simpl; try done.
    intros Hv. apply nonblank_str_Some in Hv as (Hne & Hs & s & Hget & ->).
    split; [done |]. split; [done |]. exists s. split; [done |]. right.
    exists result. split; [done |].
    destruct (result !! str "answer") as [v |]; simpl in Hget; [by subst v | done].
Qed.

Lemma extract_tweet_nonblank_witness :
  extract_tweet {[ str "text" := JStr (str "  Good morning  ") ]}
  = Some (str "Good morning")
  /\ str "Good morning" <> [].
Proof.
  assert (H : extract_tweet {[ str "text" := JStr (str "  Good morning  ") ]}
              = Some (str "Good morning")) by (vm_compute; reflexivity).
  split; [exact H |].
  exact (proj1 (extract_tweet_nonblank _ _ H)).
Defined.

(** ** Lists of paths *)

Lemma split_on_cons_inv sep s : exists w ws, split_on sep s = w :: ws.
Proof.
  destruct s as [|c s]; simpl; [eauto |].
  destruct (c =? sep)%N; [eauto |]. destruct (split_on sep s); eauto.
Qed.

Lemma split_on_no_sep sep s w : w ∈ split_on sep s -> sep ∉ w.
Proof.
  revert w. induction s as [|c s IH]; intros w; simpl.
  - intros ->%list_elem_of_singleton. apply not_elem_of_nil.
  - destruct (N.eqb_spec c sep) as [-> | Hne].
    + intros [-> | Hw]%elem_of_cons; [apply not_elem_of_nil | by apply IH].
    + destruct (split_on sep s) as [|w' ws]; simpl.
      * intros ->%list_elem_of_singleton. set_solver.
      * intros [-> | Hw]%elem_of_cons.
        -- apply not_elem_of_cons. split; [congruence |]. apply IH. set_solver.
        -- apply IH. set_solver.
Qed.

Lemma nonblank_parts_elem_of parts p :
  p ∈ nonblank_parts parts -> p <> [] /\ exists w, w ∈ parts /\ p = strip w.
Proof.
  induction parts as [|w parts IH]; simpl; [by intros ?%elem_of_nil |].
  destruct (Z.eqb_spec (len (strip w)) 0) as [_ | Hne].
  - intros Hp. destruct (IH Hp) as (? & w' & ? & ?). split; [done |].
    exists w'. split; [set_solver | done].
  - intros [-> | Hp]%elem_of_cons.
    + split; [| exists w; split; [set_solver | done]].
      intros Hnil. by rewrite Hnil in Hne.
    + destruct (IH Hp) as (? & w' & ? & ?). split; [done |].
      exists w'. split; [set_solver | done].
Qed.

(** What a path is made of: the characters of its text, slashes and,
    for the path ".", a dot. *)
Lemma split_on_elem_of sep s w c : w ∈ split_on sep s -> c ∈ w -> c ∈ s.
Proof.
  revert w. induction s as [|x s IH]; intros w; simpl.
  - intros ->%list_elem_of_singleton. by intros ?%elem_of_nil.
  - destruct (x =? sep)%N.
    + intros [-> | Hw]%elem_of_cons; [by intros ?%elem_of_nil |].
      intros Hc. right. by apply (IH w).
    + destruct (split_on sep s) as [|w' ws]; simpl.
      * intros ->%list_elem_of_singleton. intros ->%list_elem_of_singleton. by left.
      * intros [-> | Hw]%elem_of_cons.
        -- intros [-> | Hc]%elem_of_cons; [by left |]. right. apply (IH w'); set_solver.
        -- intros Hc. right. apply (IH w); set_solver.
Qed.

Lemma join_elem_of sep parts c :
  c ∈ join sep parts -> c ∈ sep \/ exists w, w ∈ parts /\ c ∈ w.
Proof.
  induction parts as [|w parts IH]; [by intros ?%elem_of_nil |].
  destruct parts as [|w2 parts].
  - intros Hc. right. exists w. split; [set_solver | done].
  - change (join sep (w :: w2 :: parts)) with (w ++ sep ++ join sep (w2 :: parts)).
    rewrite !elem_of_app. intros [Hc | [Hc | Hc]].
    + right. exists w. split; [set_solver | done].
    + by left.
    + destruct (IH Hc) as [? | (w' & Hw' & ?)]; [by left |].
      right. exists w'. split; [set_solver | done].
Qed.

Lemma path_root_elem_of s c : c ∈ path_root s -> c = SLASH.
Proof.
  unfold path_root. destruct (startswith1 SLASH s); [| by intros ?%elem_of_nil].
  destruct (_ && _); set_solver.
Qed.

Lemma Path_elem_of s c : c ∈ Path s -> c ∈ s \/ c = SLASH \/ c = DOT.
Proof.
  unfold Path. destruct (len _ =? 0).
  - intros ->%list_elem_of_singleton. by right; right.
  - rewrite elem_of_app. intros [Hc | Hc].
    + right; left. by apply (path_root_elem_of s).
    + apply join_elem_of in Hc as [->%list_elem_of_singleton | (w & Hw & Hc)];
        [by right; left |].
      left. apply list_elem_of_filter in Hw as [_ Hw].
      by apply (split_on_elem_of SLASH s w).
Qed.

Lemma Path_nonempty s : Path s <> [].
Proof.
  unfold Path.
  destruct (Z.eqb_spec (len (path_root s ++ join [SLASH] (path_parts s))) 0)
    as [_ | Hne]; [done |].
  intros Hnil. by rewrite Hnil in Hne.
Qed.

(** X18. Every path that [parse_paths] returns is the [Path] of a part
    of the text between two commas, stripped, and that part is not
    empty; the path is never empty and holds no comma, whatever the text
    of the list is. *)
Theorem parse_paths_path_like (csv p : pystr) :
  p ∈ parse_paths csv ->
  (exists s, p = Path s /\ path_like s) /\ p <> [] /\ COMMA ∉ p.
Proof.
  unfold parse_paths. intros (s & -> & Hs)%list_elem_of_fmap.
  apply nonblank_parts_elem_of in Hs as (Hne & w & Hw & ->).
  assert (Hcomma : COMMA ∉ strip w).
  { intros Hc. apply strip_elem_of in Hc. by apply (split_on_no_sep COMMA csv w). }
  split; [| split].
  - exists (strip w). split; [done |].
    split; [done |]. split; [apply strip_idempotent | done].
  - apply Path_nonempty.
  - intros [Hc | [Hc | Hc]]%Path_elem_of; [done | discriminate | discriminate].
Qed.

Lemma parse_paths_path_like_witness :
  str "a/feed.json" ∈ parse_paths (str " ./a//feed.json , ,b/feed.json")
  /\ COMMA ∉ str "a/feed.json".
Proof.
  assert (H : str "a/feed.json" ∈ parse_paths (str " ./a//feed.json , ,b/feed.json"))
    by (vm_compute; left).
  split; [exact H |].
  exact (proj2 (proj2 (parse_paths_path_like _ _ H))).
Defined.

Lemma split_on_sep_free sep w : sep ∉ w -> split_on sep w = [w].
Proof.
  induction w as [|c w IH]; intros Hw; [done |]. simpl.
  apply not_elem_of_cons in Hw as [Hc Hw].
  destruct (N.eqb_spec c sep) as [-> | _]; [done |]. by rewrite IH.
Qed.

Lemma split_on_app_sep sep w rest :
  sep ∉ w -> split_on sep (w ++ sep :: rest) = w :: split_on sep rest.
Proof.
  induction w as [|c w IH]; intros Hw; simpl.
  - by rewrite N.eqb_refl.
  - apply not_elem_of_cons in Hw as [Hc Hw].
    destruct (N.eqb_spec c sep) as [-> | _]; [done |]. by rewrite IH.
Qed.

Lemma split_on_join sep w ws :
  Forall (fun w => sep ∉ w) (w :: ws) -> split_on sep (join [sep] (w :: ws)) = w :: ws.
Proof.
  revert w. induction ws as [|w2 ws IH]; intros w Hws.
  - apply Forall_cons in Hws as [Hw _]. by apply split_on_sep_free.
  - apply Forall_cons in Hws as [Hw Hws].
    change (join [sep] (w :: w2 :: ws)) with (w ++ sep :: join [sep] (w2 :: ws)).
    rewrite split_on_app_sep by done. by rewrite IH.
Qed.

Lemma nonblank_parts_path_like ps : Forall path_like ps -> nonblank_parts ps = ps.
Proof.
  induction 1 as [|p ps (Hne & Hs & _) Hps IH]; [done |].
  simpl. rewrite Hs, IH.
  destruct (Z.eqb_spec (len p) 0) as [H0 | _]; [| done].
  destruct p; [done | by unfold len in H0].
Qed.

(** X19. Round trip: texts that are not empty, have no whitespace at
    either end and hold no comma are read back from their
    comma-separated list as the paths of these texts, one for one and in
    order. *)
Theorem parse_paths_join (ps : list pystr) :
  Forall path_like ps -> parse_paths (join [COMMA] ps) = Path <$> ps.
Proof.
  intros Hps. unfold parse_paths. destruct ps as [|p ps]; [done |].
  rewrite split_on_join.
  - by rewrite nonblank_parts_path_like.
  - eapply Forall_impl; [exact Hps |]. by intros w (_ & _ & ?).
Qed.

Lemma default_feed_paths_path_like : Forall path_like default_feed_paths.
Proof.
  unfold default_feed_paths.
  repeat constructor; try discriminate; try (vm_compute; reflexivity);
    by_computation.
Qed.

Lemma parse_paths_join_witness :
  parse_paths (join [COMMA] [str "./public//feed.json"; str "a/b/"])
  = [str "public/feed.json"; str "a/b"].
Proof.
  refine (parse_paths_join [str "./public//feed.json"; str "a/b/"] _).
  repeat constructor; try discriminate; try (vm_compute; reflexivity);
    by_computation.
Defined.

(** Whitespace around a text disappears in its parts. *)
Lemma lstrip_split s : exists a, s = a ++ lstrip s /\ Forall (fun c => is_space c = true) a.
Proof.
  induction s as [|c s (a & Hs & Ha)]; simpl; [by exists [] |].
  destruct (is_space c) eqn:Hc; [| by exists []].
  exists (c :: a). split; [by rewrite Hs at 1 | by constructor].
Qed.

Lemma rstrip_split s : exists b, s = rstrip s ++ b /\ Forall (fun c => is_space c = true) b.
Proof.
  induction s as [|c s (b & Hs & Hb)]; simpl; [by exists [] |].
  destruct (rstrip s) as [|y r] eqn:Hr.
  - destruct (is_space c) eqn:Hc.
    + exists (c :: b). simpl in Hs. split; [by rewrite Hs at 1 | by constructor].
    + exists b. simpl in Hs. split; [by rewrite Hs at 1 | done].
  - exists b. split; [by rewrite Hs at 1 | done].
Qed.

Lemma lstrip_app_spaces a s : Forall (fun c => is_space c = true) a -> lstrip (a ++ s) = lstrip s.
Proof. induction 1 as [|c a Hc Ha IH]; [done |]. simpl. by rewrite Hc. Qed.

Lemma rstrip_spaces b : Forall (fun c => is_space c = true) b -> rstrip b = [].
Proof. induction 1 as [|c b Hc Hb IH]; [done |]. simpl. by rewrite IH, Hc. Qed.

Lemma rstrip_app_spaces s b : Forall (fun c => is_space c = true) b -> rstrip (s ++ b) = rstrip s.
Proof.
  intros Hb. induction s as [|c s IH]; simpl; [by apply rstrip_spaces |]. by rewrite IH.
Qed.

Lemma lstrip_app_nonempty s b : lstrip s <> [] -> lstrip (s ++ b) = lstrip s ++ b.
Proof.
  induction s as [|c s IH]; simpl; [done |].
  destruct (is_space c); [apply IH | done].
Qed.

Lemma strip_app_spaces_l a s : Forall (fun c => is_space c = true) a -> strip (a ++ s) = strip s.
Proof. intros Ha. unfold strip. by rewrite lstrip_app_spaces. Qed.

Lemma strip_app_spaces_r s b : Forall (fun c => is_space c = true) b -> strip (s ++ b) = strip s.
Proof.
  intros Hb. unfold strip. destruct (lstrip s) as [|c t] eqn:Hl.
  - destruct (lstrip_split s) as (a & Hs & Ha). rewrite Hl, app_nil_r in Hs. subst a.
    rewrite lstrip_app_spaces by done.
    destruct (lstrip_split b) as (a & Hb' & _).
    assert (Hall : Forall (fun c => is_space c = true) (lstrip b)).
    { rewrite Hb' in Hb. by apply Forall_app in Hb as [_ ?]. }
    by rewrite (rstrip_spaces _ Hall).
  - rewrite lstrip_app_nonempty by (by rewrite Hl). rewrite Hl.
    by apply rstrip_app_spaces.
Qed.

Lemma spaces_no_comma a : Forall (fun c => is_space c = true) a -> COMMA ∉ a.
Proof.
  intros Ha Hin. rewrite Forall_forall in Ha. by specialize (Ha _ Hin).
Qed.

Lemma split_on_app_free_l sep a s :
  sep ∉ a ->
  split_on sep (a ++ s)
  = match split_on sep s with
    | w :: ws => (a ++ w) :: ws
    | [] => [a]
    end.
Proof.
  induction a as [|c a IH]; intros Ha; simpl.
  - by destruct (split_on_cons_inv sep s) as (w & ws & ->).
  - apply not_elem_of_cons in Ha as [Hc Ha].
    destruct (N.eqb_spec c sep) as [-> | _]; [done |]. rewrite IH by done.
    by destruct (split_on sep s).
Qed.

Lemma nonblank_parts_split_app_r s b :
  Forall (fun c => is_space c = true) b ->
  nonblank_parts (split_on COMMA (s ++ b)) = nonblank_parts (split_on COMMA s).
Proof.
  intros Hb. induction s as [|c s IH].
  - simpl. rewrite split_on_sep_free by (by apply spaces_no_comma). simpl.
    replace (strip b) with (strip ([] ++ b)) by done.
    by rewrite strip_app_spaces_r.
  - simpl. destruct (N.eqb_spec c COMMA) as [-> | Hne].
    + simpl. by rewrite IH.
    + destruct (split_on_cons_inv COMMA (s ++ b)) as (w1 & ws1 & H1).
      destruct (split_on_cons_inv COMMA s) as (w2 & ws2 & H2).
      rewrite H1, H2 in *. clear IH.
      assert (Hparts : ws1 = ws2 /\ w1 = w2 ++ b \/ ws1 <> [] /\ w1 = w2
                       /\ nonblank_parts ws1 = nonblank_parts ws2).
      { clear Hne c. revert w1 ws1 w2 ws2 H1 H2.
        induction s as [|d s IHs]; intros w1 ws1 w2 ws2 H1 H2.
        - simpl in *. rewrite split_on_sep_free in H1 by (by apply spaces_no_comma).
          injection H1 as <- <-. injection H2 as <- <-. by left.
        - simpl in H1, H2. destruct (N.eqb_spec d COMMA) as [-> | Hd].
          + injection H1 as <- <-. injection H2 as <- <-. right.
            split; [by destruct (split_on_cons_inv COMMA (s ++ b)) as (? & ? & ->) |].
            split; [done |].
            destruct (split_on_cons_inv COMMA (s ++ b)) as (u1 & us1 & Hu1).
            destruct (split_on_cons_inv COMMA s) as (u2 & us2 & Hu2).
            destruct (IHs _ _ _ _ Hu1 Hu2) as [[-> ->] | (_ & -> & Hrest)];
              rewrite Hu1, Hu2; simpl.
            * by rewrite strip_app_spaces_r.
            * by rewrite Hrest.
          + destruct (split_on_cons_inv COMMA (s ++ b)) as (u1 & us1 & Hu1).
            destruct (split_on_cons_inv COMMA s) as (u2 & us2 & Hu2).
            rewrite Hu1 in H1. rewrite Hu2 in H2.
            injection H1 as <- <-. injection H2 as <- <-.
            destruct (IHs _ _ _ _ Hu1 Hu2) as [[-> ->] | (? & -> & ?)];
              [by left | by right]. }
      destruct Hparts as [[-> ->] | (_ & -> & Hrest)]; simpl.
      * change (c :: w2 ++ b) with ((c :: w2) ++ b). by rewrite strip_app_spaces_r.
      * by rewrite Hrest.
Qed.

Lemma nonblank_parts_split_framed a t b :
  Forall (fun c => is_space c = true) a -> Forall (fun c => is_space c = true) b ->
  nonblank_parts (split_on COMMA (a ++ t ++ b)) = nonblank_parts (split_on COMMA t).
Proof.
  intros Ha Hb. rewrite split_on_app_free_l by (by apply spaces_no_comma).
  pose proof (nonblank_parts_split_app_r t b Hb) as Hr.
  destruct (split_on_cons_inv COMMA (t ++ b)) as (w & ws & Hw). rewrite Hw in *.
  rewrite <- Hr. simpl. by rewrite strip_app_spaces_l.
Qed.

Lemma nonblank_parts_split_strip s :
  nonblank_parts (split_on COMMA (strip s)) = nonblank_parts (split_on COMMA s).
Proof.
  destruct (lstrip_split s) as (a & Hs & Ha).
  destruct (rstrip_split (lstrip s)) as (b & Hl & Hb).
  fold (strip s) in Hl.
  transitivity (nonblank_parts (split_on COMMA (a ++ strip s ++ b))).
  - symmetry. by apply nonblank_parts_split_framed.
  - by rewrite <- Hl, <- Hs.
Qed.

(** X20. A value of FEED_PATHS that is not blank gives both scripts the
    same list of feed paths: [_resolve_feed_paths] of
    update_weather_feed.py without [--feed] and [parse_paths] of
    generate_talk.py agree on it. *)
Theorem feed_paths_agree (env_feeds : pystr) :
  strip env_feeds <> [] ->
  _resolve_feed_paths None env_feeds = parse_paths env_feeds
  /\ _resolve_feed_paths (Some []) env_feeds = parse_paths env_feeds.
Proof.
  intros Hne. unfold _resolve_feed_paths, parse_paths.
  destruct (Z.eqb_spec (len (strip env_feeds)) 0) as [H0 | _].
  - destruct (strip env_feeds); [done | by unfold len in H0].
  - simpl. by rewrite nonblank_parts_split_strip.
Qed.

Lemma feed_paths_agree_witness :
  _resolve_feed_paths None (str " a.json, b.json ") = parse_paths (str " a.json, b.json ").
Proof.
  assert (H : strip (str " a.json, b.json ") <> []) by (vm_compute; discriminate).
  exact (proj1 (feed_paths_agree _ H)).
Defined.

(** X21. [_resolve_feed_paths] can return no path at all: a FEED_PATHS
    that is not blank but has only blank parts, such as a lone comma,
    yields the empty list, not the defaults. *)
Theorem resolve_feed_paths_can_be_empty (env_feeds : pystr) :
  strip env_feeds <> [] ->
  Forall (fun part => strip part = []) (split_on COMMA (strip env_feeds)) ->
  _resolve_feed_paths None env_feeds = [].
Proof.
  intros Hne Hblank. unfold _resolve_feed_paths.
  destruct (Z.eqb_spec (len (strip env_feeds)) 0) as [H0 | _].
  - destruct (strip env_feeds); [done | by unfold len in H0].
  - simpl. induction Hblank as [|w ws Hw Hws IH]; [done |].
    simpl. by rewrite Hw.
Qed.

Lemma resolve_feed_paths_can_be_empty_witness :
  _resolve_feed_paths None (str " , ") = [].
Proof.
  apply resolve_feed_paths_can_be_empty.
  - vm_compute. discriminate.
  - vm_compute. repeat constructor.
Defined.

(** ** Ingestion *)

Section ingest_properties.

Variable add_document : list pystr -> pystr -> option pystr.

Lemma ingest_loop_spec docs : forall calls successes last_error,
  let out := ingest_loop add_document docs calls successes last_error in
  snd out = calls ++ docs
  /\ successes <= fst (fst out) <= successes + len docs
  /\ (fst (fst out) = successes ->
      forall i text, docs !! i = Some text ->
                     is_Some (add_document (calls ++ take i docs) text))
  /\ ((forall i text, docs !! i = Some text ->
                      add_document (calls ++ take i docs) text = None) ->
      fst (fst out) = successes + len docs /\ snd (fst out) = last_error)
  /\ (snd (fst out) = None ->
      last_error = None /\ fst (fst out) = successes + len docs).
Proof.
  induction docs as [|text docs IH]; intros calls successes last_error; cbv zeta.
  - simpl. rewrite app_nil_r. unfold len. simpl.
    repeat split; try lia; try done.
  - simpl.
    assert (Hlen : len (text :: docs) = len docs + 1) by (unfold len; simpl; lia).
    rewrite Hlen.
    assert (Hshift : forall (P : list pystr -> pystr -> Prop),
              (forall i t, (text :: docs) !! i = Some t ->
                           P (calls ++ take i (text :: docs)) t) ->
              P calls text
              /\ forall i t, docs !! i = Some t -> P ((calls ++ [text]) ++ take i docs) t).
    { intros P HP. split.
      - specialize (HP 0%nat text eq_refl). simpl in HP. by rewrite app_nil_r in HP.
      - intros i t Hi. specialize (HP (S i) t Hi). simpl in HP.
        by rewrite <- app_assoc. }
    destruct (add_document calls text) as [exc |] eqn:Hadd.
    + destruct (IH (calls ++ [text]) successes (Some exc))
        as (Hc & Hb & Hfail & Hok & Hnone).
      split; [by rewrite Hc, <- app_assoc |]. split; [lia |].
      split; [| split].
      * intros Hs [|i] t Hi.
        -- simpl in Hi. injection Hi as <-. simpl. rewrite app_nil_r. by rewrite Hadd.
        -- simpl. replace (calls ++ text :: take i docs)
             with ((calls ++ [text]) ++ take i docs) by (by rewrite <- app_assoc).
           by apply Hfail.
      * intros Hall.
        apply (Hshift (fun c t => add_document c t = None)) in Hall as [H0 _].
        congruence.
      * intros Hn. by destruct (Hnone Hn) as [? _].
    + destruct (IH (calls ++ [text]) (successes + 1) last_error)
        as (Hc & Hb & Hfail & Hok & Hnone).
      split; [by rewrite Hc, <- app_assoc |]. split; [lia |].
      split; [| split].
      * intros Hs. lia.
      * intros Hall.
        apply (Hshift (fun c t => add_document c t = None)) in Hall as [_ Hrest].
        destruct (Hok Hrest) as [-> ->]. split; [lia | done].
      * intros Hn. destruct (Hnone Hn) as [-> ->]. split; [done | lia].
Qed.

(** X22. [ingest_rag] never reports zero documents.  Without a
    non-blank document it raises 400 and does not touch the store.
    Otherwise it passes every non-blank document, stripped, to the store
    once and in order, going on after a failure; it raises 502 only if
    every call failed, and else returns the number of successes, between
    1 and the number of non-blank documents, with no sign of the
    failures; that number is all of them when no call fails. *)
Theorem ingest_rag_outcomes (documents : list pystr) :
  let docs := nonblank_parts documents in
  let out := ingest_rag add_document documents in
  (docs = [] ->
   out = (inl (HTTPException 400 (str "No documents provided.")), []))
  /\ (docs <> [] ->
      snd out = docs
      /\ match fst out with
         | inr ingested => 1 <= ingested <= len docs
         | inl e =>
             (exists exc, e = HTTPException 502 (str "Document ingestion failed: " ++ exc))
             /\ forall i text, docs !! i = Some text ->
                               is_Some (add_document (take i docs) text)
         end
      /\ ((forall i text, docs !! i = Some text ->
                          add_document (take i docs) text = None) ->
          fst out = inr (len docs))).
Proof.
  intros docs out. subst out. unfold ingest_rag. fold docs. clearbody docs.
  split; [by intros -> |]. intros Hne.
  destruct docs as [|d docs']; [done |]. cbv iota.
  assert (Hpos : 1 <= len (d :: docs')) by (unfold len; simpl; lia).
  remember (d :: docs') as ds eqn:Hds. clear Hds Hne.
  pose proof (ingest_loop_spec ds [] 0 None) as Hspec. cbv zeta in Hspec.
  destruct (ingest_loop add_document ds [] 0 None)
    as [[successes last_error] calls] eqn:Hloop.
  simpl in Hspec. destruct Hspec as (Hc & Hb & Hfail & Hok & Hnone).
  split; [| split].
  - destruct last_error; [destruct (successes =? 0) |]; done.
  - destruct last_error as [exc |].
    + destruct (Z.eqb_spec successes 0) as [-> | Hnz]; simpl.
      * split; [by exists exc |]. by apply Hfail.
      * lia.
    + simpl. destruct (Hnone eq_refl) as [_ ->]. lia.
  - intros Hall. destruct (Hok Hall) as [-> ->]. simpl. f_equal; lia.
Qed.

End ingest_properties.

Lemma ingest_rag_outcomes_witness :
  ingest_rag refuses_x [str " a "; str "  "; str "x1"; str "b"]
  = (inr 2, [str "a"; str "x1"; str "b"])
  /\ 1 <= 2 <= len (nonblank_parts [str " a "; str "  "; str "x1"; str "b"]).
Proof.
  assert (Hrun : ingest_rag refuses_x [str " a "; str "  "; str "x1"; str "b"]
                 = (inr 2, [str "a"; str "x1"; str "b"])) by (vm_compute; reflexivity).
  split; [exact Hrun |].
  destruct (ingest_rag_outcomes refuses_x [str " a "; str "  "; str "x1"; str "b"])
    as [_ H].
  destruct H as (_ & Hmatch & _); [vm_compute; discriminate |].
  rewrite Hrun in Hmatch. exact Hmatch.
Defined.

(** ** The log feed: what an append keeps *)

Lemma feed_items_with_entry feed_obj entry :
  feed_items (with_entry feed_obj entry) = entry :: feed_items feed_obj.
Proof.
  destruct feed_obj as [a|l|m]; simpl; [done | done |].
  destruct (m !! str "items") as [items |] eqn:Hitems; simpl; [| done].
  rewrite lookup_insert_eq. by destruct items.
Qed.

(** X23. The log append never drops, merges or reorders items: appending
    entries one after the other to any feed object leaves the entries in
    front, the newest first, followed by all the items that were there;
    and a dict that has [items] keeps all its other fields. *)
Theorem append_keeps_items (entries : list json) :
  (forall feed_obj,
      feed_items (foldl with_entry feed_obj entries)
      = reverse entries ++ feed_items feed_obj)
  /\ (forall m, is_Some (m !! str "items") ->
        exists m', foldl with_entry (JObj m) entries = JObj m'
          /\ is_Some (m' !! str "items")
          /\ forall k, k <> str "items" -> m' !! k = m !! k).
Proof.
  split.
  - induction entries as [|e entries IH]; intros feed_obj; [done |].
    simpl. rewrite IH, feed_items_with_entry, reverse_cons.
    by rewrite <- app_assoc.
  - induction entries as [|e entries IH]; intros m Hm.
    + exists m. done.
    + simpl. destruct Hm as [items Hitems]. rewrite Hitems.
      destruct (IH (<[str "items" := JArr (e :: match items with
                                                 | JArr l => l
                                                 | _ => []
                                                 end)]> m))
        as (m' & Hfold & Hsome & Hkeep).
      { rewrite lookup_insert_eq. eauto. }
      exists m'. split; [done |]. split; [done |].
      intros k Hk. rewrite Hkeep by done. by rewrite lookup_insert_ne.
Qed.

(** ** The topic: every family at every hour *)

(** X24. The bias by hour of [pick_topic] only reorders the eight
    families: at every hour each family can be drawn. *)
Theorem every_family_at_every_hour (h : Z) (family : pystr) :
  family ∈ TOPIC_FAMILIES ->
  families_for h ≡ₚ TOPIC_FAMILIES
  /\ exists r, forall now, hour now = h ->
       exists mode, pick_topic (draws_first r) now = Some (family, mode).
Proof.
  intros Hin. split; [apply families_for_Permutation |].
  rewrite <- (families_for_Permutation h) in Hin.
  apply list_elem_of_lookup in Hin as [i Hi].
  exists i. intros now <-. unfold pick_topic.
  assert (Hfam : choice (draws_first i (hour_key now)) 0 (families_for (hour now))
                 = Some family).
  { unfold choice, draws_first. rewrite Nat.mod_small; [done |].
    by eapply lookup_lt_Some. }
  rewrite Hfam. simpl.
  destruct (choice_elem_of (draws_first i (hour_key now)) 1 (modes_for family))
    as (mode & -> & _).
  { intros Hnil. pose proof (modes_for_Permutation family) as Hp.
    rewrite Hnil in Hp. by apply Permutation_nil_l in Hp. }
  by exists mode.
Qed.

Lemma every_family_at_every_hour_witness :
  exists r, forall now, hour now = 23 ->
    exists mode, pick_topic (draws_first r) now = Some (str "running", mode).
Proof.
  refine (proj2 (every_family_at_every_hour 23 (str "running") _)).
  by_computation.
Defined.

(** ** The compact forecast *)

Lemma compact_blocks_spec (l : list json) :
  exists blocks, omap compact_block l = JObj <$> blocks
    /\ (length blocks <= length l)%nat
    /\ Forall (fun b => dom b = ({[str "areas"; str "timeDefines"]} : gset pystr)) blocks.
Proof.
  induction l as [|x l (blocks & Heq & Hlen & Hdom)]; [by exists [] |].
  change (omap compact_block (x :: l))
    with (match compact_block x with
          | Some y => y :: omap compact_block l
          | None => omap compact_block l
          end).
  rewrite Heq. destruct x as [a|l'|b]; cbn [compact_block];
    try (exists blocks; split; [done | split; [cbn [length]; lia | done]]).
  eexists (_ :: blocks). split; [reflexivity |].
  split; [cbn [length]; lia |]. constructor; [| done].
  rewrite dom_insert_L, dom_singleton_L. set_solver.
Qed.

(** X25. The compact forecast is small whatever the forecast is: it has
    no field besides [publishingOffice], [reportDatetime], [targetArea]
    and [timeSeries], and [timeSeries], when present, holds at most three
    blocks, each with the two fields [timeDefines] and [areas] and
    nothing else. *)
Theorem pick_time_series_compact (forecast_obj : json) :
  let out := _pick_time_series forecast_obj in
  dom out ⊆ ({[str "publishingOffice"; str "reportDatetime"; str "targetArea";
               str "timeSeries"]} : gset pystr)
  /\ forall v, out !! str "timeSeries" = Some v ->
       exists blocks, v = JArr (JObj <$> blocks)
         /\ (length blocks <= 3)%nat
         /\ Forall (fun b => dom b = ({[str "areas"; str "timeDefines"]} : gset pystr))
              blocks.
Proof.
  intros out. unfold out, _pick_time_series.
  destruct forecast_obj as [a|[|[a|l|first] rest]|m];
    try (split; [set_solver | by intros v ?]).
  destruct (json_get first (str "timeSeries")) as [a|[|b ts]|m] eqn:Hts;
    try (split; [rewrite !dom_insert_L, dom_singleton_L; set_solver |
                 intros v Hv; repeat (rewrite lookup_insert_ne in Hv by done);
                 by rewrite lookup_singleton_ne in Hv]).
  split.
  - rewrite !dom_insert_L, dom_singleton_L. set_solver.
  - intros v Hv. rewrite lookup_insert_eq in Hv. injection Hv as <-.
    destruct (compact_blocks_spec (slice_to 3 (b :: ts))) as (blocks & Heq & Hlen & Hdom).
    exists blocks. split; [by rewrite <- Heq |]. split; [| done].
    etrans; [exact Hlen |]. unfold slice_to. simpl. rewrite length_take. lia.
Qed.

(** ** The payload: what is put into the snapshot *)

(** X26. Whatever the snapshot holds, the weather that [build_payload]
    sends has [current.time] equal to the clock of the run, a truthy
    [timezone] (the given one when that is not empty) and a truthy
    [source]; the other fields of [current] and every other field of
    the snapshot are passed on as they are. *)
Theorem inject_now_overrides_clock (live_weather : gmap pystr json)
    (tz_name now_iso : pystr) :
  let lw := inject_now live_weather tz_name now_iso in
  (exists cur', lw !! str "current" = Some (JObj cur')
     /\ cur' !! str "time" = Some (JStr now_iso)
     /\ forall cur, live_weather !! str "current" = Some (JObj cur) ->
          forall k, k <> str "time" -> cur' !! k = cur !! k)
  /\ (exists tz, lw !! str "timezone" = Some tz /\ json_truthy tz = true
                 /\ (tz_name <> [] -> tz = JStr tz_name))
  /\ (exists src, lw !! str "source" = Some src /\ json_truthy src = true)
  /\ forall k, k <> str "timezone" -> k <> str "current" -> k <> str "source" ->
               lw !! k = live_weather !! k.
Proof.
  intros lw. unfold lw, inject_now. split; [| split; [| split]].
  - eexists. rewrite lookup_insert_ne by done. rewrite lookup_insert_eq.
    split; [reflexivity |]. split; [by rewrite lookup_insert_eq |].
    intros cur Hcur k Hk. rewrite lookup_insert_ne by done.
    unfold json_get. rewrite lookup_insert_ne by done. by rewrite Hcur.
  - eexists. rewrite !lookup_insert_ne by done. rewrite lookup_insert_eq.
    split; [reflexivity |]. split.
    + unfold json_or.
      destruct (json_truthy (if json_truthy (JStr tz_name) then JStr tz_name
                             else json_get live_weather (str "timezone"))) eqn:Ht;
        [exact Ht | reflexivity].
    + intros Hne. unfold json_or. simpl.
      destruct tz_name as [|c tz]; [done |]. reflexivity.
  - eexists. rewrite lookup_insert_eq. split; [reflexivity |].
    unfold json_or.
    match goal with
    | |- json_truthy (if json_truthy ?a then _ else _) = true =>
        destruct (json_truthy a) eqn:Hs; [exact Hs | reflexivity]
    end.
  - intros k Hk1 Hk2 Hk3. by rewrite !lookup_insert_ne by done.
Qed.
